(** * pbrt spectral representation: src/pbrt/util/spectrum.cpp

    A shallow embedding of the spectrum routines of spectrum.cpp and the
    properties checked against them.

    - [Float] is pbrt's default [Float = float], IEEE 754 binary32 with
      round-to-nearest-even, taken from the Standard Library's executable
      specification [SpecFloat] (prec = 24, emax = 128).
    - [size_t] is a 64-bit unsigned integer: arithmetic wraps modulo 2^64.
    - [int] is a 32-bit signed integer: arithmetic leaving the range is
      undefined behaviour.
    - A call either returns a value or stops the process; the ways a
      process stops are the constructors of [outcome].
    - DCHECK is compiled in or out with the build; the variable
      [debug_build] says which. *)

From Stdlib Require Import ZArith List Bool String Lia.
From Stdlib Require Import Floats.SpecFloat.
Import ListNotations.

Local Open Scope Z_scope.

(** ** Float: IEEE binary32 *)

Module F32.

Definition prec : Z := 24.
Definition emax : Z := 128.

Definition Float : Type := spec_float.

Definition fadd : Float -> Float -> Float := SFadd prec emax.
Definition fsub : Float -> Float -> Float := SFsub prec emax.
Definition fmul : Float -> Float -> Float := SFmul prec emax.
Definition fdiv : Float -> Float -> Float := SFdiv prec emax.

(** C++ comparison operators on [Float]; every comparison with a NaN is
    false except [!=]. *)
Definition flt (a b : Float) : bool := SFltb a b.   (* a <  b *)
Definition fle (a b : Float) : bool := SFleb a b.   (* a <= b *)
Definition fgt (a b : Float) : bool := SFltb b a.   (* a >  b *)
Definition fge (a b : Float) : bool := SFleb b a.   (* a >= b *)
Definition feq (a b : Float) : bool := SFeqb a b.   (* a == b *)
Definition fne (a b : Float) : bool := negb (feq a b). (* a != b *)

Definition isnan (a : Float) : bool :=
  match a with S754_nan => true | _ => false end.

(** Conversion of an integer to [Float] (round to nearest even). *)
Definition of_Z (z : Z) : Float := binary_normalize prec emax z 0 false.

(** [m * 2^e] rounded to binary32. *)
Definition of_bits (m e : Z) : Float := binary_normalize prec emax m e false.

Definition zero : Float := S754_zero false.
Definition one : Float := of_Z 1.
Definition half : Float := of_bits 1 (-1).          (* 0.5f *)
Definition nan : Float := S754_nan.
Definition pinf : Float := S754_infinity false.

(** A value of the binary32 format (canonical mantissa and exponent). *)
Definition valid (a : Float) : bool := valid_binary prec emax a.

End F32.
Import F32.

(** binary64, for the [double] literals the source mixes into [Float]
    expressions, with the two conversions C++ inserts. *)
Module F64.

Definition prec : Z := 53.
Definition emax : Z := 1024.

Definition mul : spec_float -> spec_float -> spec_float := SFmul prec emax.

(** [float] to [double]: exact, the mantissa is realigned. *)
Definition of_float (a : Float) : spec_float :=
  match a with
  | S754_finite s m e => binary_round prec emax s m e
  | _ => a
  end.

(** [double] to [float]: rounded to nearest even. *)
Definition to_float (a : spec_float) : Float :=
  match a with
  | S754_finite s m e => binary_round F32.prec F32.emax s m e
  | _ => a
  end.

End F64.

(** ** How a call ends *)

Inductive outcome (A : Type) : Type :=
| Ret (a : A)        (* the call returns [a] *)
| CheckFailed        (* a CHECK macro failed: fatal, the process aborts *)
| OutOfBounds        (* an array was indexed outside [0, size) *)
| SignedOverflow     (* [int] arithmetic left the 32-bit range *)
| AllocFailed        (* storage for a vector could not be obtained *)
| OutOfFuel.         (* the model's step budget ran out; never the code's *)

Arguments Ret {A} a.
Arguments CheckFailed {A}.
Arguments OutOfBounds {A}.
Arguments SignedOverflow {A}.
Arguments AllocFailed {A}.
Arguments OutOfFuel {A}.

Definition bind {A B : Type} (m : outcome A) (k : A -> outcome B) : outcome B :=
  match m with
  | Ret a => k a
  | CheckFailed => CheckFailed
  | OutOfBounds => OutOfBounds
  | SignedOverflow => SignedOverflow
  | AllocFailed => AllocFailed
  | OutOfFuel => OutOfFuel
  end.

Notation "x <- m ;; k" := (bind m (fun x => k))
  (at level 61, m at next level, right associativity).

(** CHECK(c): fatal when [c] is false. *)
Definition CHECK (c : bool) : outcome unit :=
  if c then Ret tt else CheckFailed.

(** ** Integers and vectors *)

(** [size_t]: 64 bits, unsigned, wrapping. *)
Definition size_t_modulus : Z := 2 ^ 64.
Definition size_t_wrap (z : Z) : Z := z mod size_t_modulus.

(** [int]: 32 bits, signed. *)
Definition INT_MIN : Z := - 2 ^ 31.
Definition INT_MAX : Z := 2 ^ 31 - 1.
Definition in_int (z : Z) : bool := (INT_MIN <=? z) && (z <=? INT_MAX).
Definition int_result (z : Z) : outcome Z :=
  if in_int z then Ret z else SignedOverflow.

(** Conversion to [int] of an integer value of a wider type ([size_t]): the
    low 32 bits, read as signed. *)
Definition int_of_size_t (z : Z) : Z :=
  let r := z mod 2 ^ 32 in
  if r <=? INT_MAX then r else r - 2 ^ 32.

Definition size {A : Type} (l : list A) : Z := Z.of_nat (List.length l).

(** [v[i]] for a [size_t] index. *)
Definition vec_get {A : Type} (l : list A) (i : Z) : outcome A :=
  if (0 <=? i) && (i <? size l) then
    match nth_error l (Z.to_nat i) with
    | Some a => Ret a
    | None => OutOfBounds
    end
  else OutOfBounds.

Fixpoint list_set {A : Type} (l : list A) (n : nat) (x : A) : list A :=
  match l, n with
  | [], _ => []
  | _ :: t, O => x :: t
  | h :: t, S n' => h :: list_set t n' x
  end.

(** [v[i] = x] for a [size_t] index. *)
Definition vec_set {A : Type} (l : list A) (i : Z) (x : A) : outcome (list A) :=
  if (0 <=? i) && (i <? size l) then Ret (list_set l (Z.to_nat i) x)
  else OutOfBounds.

(** The largest element count a [Float] vector can be given: PTRDIFF_MAX
    bytes of 4-byte elements on the 64-bit target. *)
Definition vector_max_size : Z := (2 ^ 63 - 1) / 4.

(** [vector<Float> v(count)]: [count] zero-initialised elements. *)
Definition vector_new (count : Z) : outcome (list Float) :=
  if count <=? vector_max_size then Ret (repeat zero (Z.to_nat count))
  else AllocFailed.

(** [vector<Float> v(first, last)]: a copy of the elements given. *)
Definition vector_copy (l : list Float) : outcome (list Float) :=
  if size l <=? vector_max_size then Ret l else AllocFailed.

(** ** Helpers of pbrt/util/math.h *)

(** Modelled from the spec: [Lerp] (pbrt/util/math.h is not under src/),
    the linear interpolation [(1 - t) * a + t * b]. *)
Definition Lerp (t a b : Float) : Float :=
  fadd (fmul (fsub one t) a) (fmul t b).

(** Modelled from the spec: [Clamp] (pbrt/util/math.h is not under src/). *)
Definition Clamp (x lo hi : Z) : Z :=
  if x <? lo then lo else if hi <? x then hi else x.

(** Modelled from the spec: [FindInterval] (pbrt/util/math.h is not under
    src/), the binary search for the largest index at which the predicate
    holds: a bisection over [0, size), clamped to [0, size - 2]. The
    predicate is the caller's code and may stop the process. *)
Fixpoint FindInterval_loop (fuel : nat) (pred : Z -> outcome bool) (first len : Z)
  : outcome Z :=
  match fuel with
  | O => Ret first
  | S fuel' =>
      if 0 <? len then
        let half := Z.shiftr len 1 in
        let middle := first + half in
        holds <- pred middle ;;
        if holds
        then FindInterval_loop fuel' pred (middle + 1) (len - (half + 1))
        else FindInterval_loop fuel' pred first half
      else Ret first
  end.

Definition FindInterval (size : Z) (pred : Z -> outcome bool) : outcome Z :=
  first <- FindInterval_loop (Z.to_nat size) pred 0 size ;;
  Ret (Clamp (first - 1) 0 (size - 2)).

(** Modelled from the spec: [Pow<5>] (pbrt/util/math.h is not under src/),
    the fifth power of Planck's law, by squaring:
    [Pow<2>(v) * Pow<2>(v) * v]. *)
Definition Pow5 (v : Float) : Float :=
  fmul (fmul (fmul v v) (fmul v v)) v.

(** ** An instance of [std::exp]

    [std::exp] belongs to the C library and is a variable of the section
    below. [exp_rn] is the instance used where a closed example needs one:
    e^x computed in fixed point on 256 fractional bits (argument halved 8
    times, 48 Taylor terms, 8 squarings) and rounded to the nearest
    binary32; NaN gives NaN, +inf gives +inf, -inf gives +0, arguments from
    89 up overflow to +inf and arguments down from -104 underflow to +0. *)

Definition exp_scale : Z := 2 ^ 256.

Fixpoint exp_taylor (n : nat) (k : Z) (R term sum : Z) : Z :=
  match n with
  | O => sum
  | S n' =>
      let term' := (term * R) / (exp_scale * k) in
      exp_taylor n' (k + 1) R term' (sum + term')
  end.

Fixpoint exp_square (n : nat) (y : Z) : Z :=
  match n with
  | O => y
  | S n' => exp_square n' ((y * y) / exp_scale)
  end.

Definition exp_fixed (s : bool) (m : positive) (e : Z) : Z :=
  let sh := e - 8 + 256 in
  let mag := if 0 <=? sh then Z.shiftl (Zpos m) sh else Z.shiftr (Zpos m) (- sh) in
  let R := if s then - mag else mag in
  exp_square 8 (exp_taylor 48 1 R exp_scale exp_scale).

Definition exp_rn (x : Float) : Float :=
  match x with
  | S754_nan => S754_nan
  | S754_infinity false => S754_infinity false
  | S754_infinity true => S754_zero false
  | S754_zero _ => one
  | S754_finite s m e =>
      if fle (of_Z 89) x then S754_infinity false
      else if fle x (of_Z (-104)) then S754_zero false
      else binary_normalize F32.prec F32.emax (exp_fixed s m e) (-256) false
  end.

(** ** Spectra *)

(** [SampledSpectrum]: the array [v] of [NSpectrumSamples] values;
    [SampledWavelengths]: the arrays [lambda] and [pdf] of the same size. *)
Definition SampledSpectrum : Type := list Float.

Record SampledWavelengths : Type := {
  swl_lambda : list Float;
  swl_pdf : list Float
}.

(** [a[i]] on a fixed-size array. *)
Definition at_ (a : list Float) (i : nat) : Float := nth i a zero.

(** [SpectrumHandle]: what every kind of spectrum offers, evaluation at a
    wavelength ([operator()]) and [Sample]. A call through a handle is
    taken as returning; what the callers compute is stated on the values
    the handle returns. *)
Record SpectrumHandle : Type := {
  spectrum_eval : Float -> Float;
  spectrum_Sample : SampledWavelengths -> SampledSpectrum
}.

Record XYZ : Type := { xyz_X : Float; xyz_Y : Float; xyz_Z : Float }.

Record RGB : Type := { rgb_r : Float; rgb_g : Float; rgb_b : Float }.

Record PiecewiseLinearSpectrum : Type := {
  pls_lambda : list Float;
  pls_v : list Float
}.

Record DenselySampledSpectrum : Type := {
  dss_lambdaMin : Z;
  dss_lambdaMax : Z;
  dss_v : list Float
}.

(** The diagnostics of [PiecewiseLinearSpectrum::Read]; [NotIncreasing]
    carries the entry index as the message prints it, [int(i)]. *)
Inductive warning : Type :=
| UnableToRead (fn : string)
| ExtraValue (fn : string)
| NotIncreasing (fn : string) (i : Z) (prev cur : Float).

(** Physical constants of [Blackbody] as the [Float] they are stored in,
    and the [double] literal 1e-9. *)
Definition Blackbody_c : Float := of_Z 299792458.
Definition Blackbody_h : Float := of_bits 14430302 (-134).  (* 6.62606957e-34 *)
Definition Blackbody_kb : Float := of_bits 8750901 (-99).   (* 1.3806488e-23 *)
Definition double_1e_9 : spec_float :=
  S754_finite false 4835703278458517 (-82).

(** Modelled from the spec: [LambdaMin], [LambdaMax] (declared in
    pbrt/util/spectrum.h, not under src/), the wavelength range 360 to 830
    nanometers. *)
Definition LambdaMin : Float := of_Z 360.
Definition LambdaMax : Float := of_Z 830.

(** The ten probe wavelengths of [FindMatchingNamed]. *)
Definition wls : list Float :=
  [of_Z 380; of_Z 402; of_Z 455; of_Z 503; of_Z 579;
   of_Z 610; of_Z 660; of_Z 692; of_Z 702; of_bits 1431 (-1)].

Section Spectrum.

(** What the translation unit takes from outside src/: [std::exp] on
    [float], the sample count and the CIE normalisation constant of
    spectrum.h, the CIE matching curves, the float-file reader of
    pbrt/util/file.h and the table of named spectra. *)
Variable std_exp : Float -> Float.
Variable NSpectrumSamples : nat.
Variable CIE_Y_integral : Float.
Variables SPDs_X SPDs_Y SPDs_Z : SpectrumHandle.
Variable ReadFloatFile : string -> option (list Float).
Variable namedSPDs : list (string * SpectrumHandle).

(** *** Blackbody (spectrum.cpp 52-65) *)

Definition Blackbody_Le (lambda T : Float) : Float :=
  let c := Blackbody_c in
  let h := Blackbody_h in
  let kb := Blackbody_kb in
  let l := F64.to_float (F64.mul (F64.of_float lambda) double_1e_9) in
  fdiv (fmul (fmul (fmul (of_Z 2) h) c) c)
       (fmul (Pow5 l)
             (fsub (std_exp (fdiv (fmul h c) (fmul (fmul l kb) T))) one)).

Definition Blackbody (lambda T : Float) : outcome Float :=
  if fle T zero then Ret zero
  else
    let Le := Blackbody_Le lambda T in
    _ <- CHECK (negb (isnan Le)) ;;
    Ret Le.

(** *** SpectrumToY, SpectrumToXYZ (spectrum.cpp 139-154)

    Both loops are [for (Float lambda = LambdaMin; lambda <= LambdaMax;
    ++lambda)]: the loop variable is a [Float] stepped by [++lambda]. *)

Fixpoint for_lambda {A : Type} (fuel : nat) (body : Float -> A -> A)
  (lambda : Float) (acc : A) : outcome A :=
  match fuel with
  | O => OutOfFuel
  | S fuel' =>
      if fle lambda LambdaMax
      then for_lambda fuel' body (fadd lambda one) (body lambda acc)
      else Ret acc
  end.

Definition SpectrumToY (fuel : nat) (s : SpectrumHandle) : outcome Float :=
  y <- for_lambda fuel
         (fun lambda y =>
            fadd y (fmul (spectrum_eval SPDs_Y lambda) (spectrum_eval s lambda)))
         LambdaMin zero ;;
  Ret (fdiv y CIE_Y_integral).

Definition XYZ_zero : XYZ := {| xyz_X := zero; xyz_Y := zero; xyz_Z := zero |}.

(** Modelled from the spec: [XYZ / Float] (pbrt/util/color.h is not under
    src/), each component divided by the same constant. *)
Definition XYZ_div (xyz : XYZ) (a : Float) : XYZ :=
  {| xyz_X := fdiv (xyz_X xyz) a; xyz_Y := fdiv (xyz_Y xyz) a;
     xyz_Z := fdiv (xyz_Z xyz) a |}.

Definition SpectrumToXYZ (fuel : nat) (s : SpectrumHandle) : outcome XYZ :=
  xyz <- for_lambda fuel
           (fun lambda xyz =>
              {| xyz_X := fadd (xyz_X xyz)
                            (fmul (spectrum_eval SPDs_X lambda) (spectrum_eval s lambda));
                 xyz_Y := fadd (xyz_Y xyz)
                            (fmul (spectrum_eval SPDs_Y lambda) (spectrum_eval s lambda));
                 xyz_Z := fadd (xyz_Z xyz)
                            (fmul (spectrum_eval SPDs_Z lambda) (spectrum_eval s lambda)) |})
           LambdaMin XYZ_zero ;;
  Ret (XYZ_div xyz CIE_Y_integral).

(** *** PiecewiseLinearSpectrum (spectrum.cpp 156-224) *)

(** [for (size_t i = 0; i < bound; ++i) CHECK_LT(lambda[i], lambda[i + 1])]
    with [bound = lambda.size() - 1] computed in [size_t]. *)
Fixpoint CHECK_increasing (fuel : nat) (lambda : list Float) (i bound : Z)
  : outcome unit :=
  match fuel with
  | O => OutOfFuel
  | S fuel' =>
      if i <? bound then
        a <- vec_get lambda i ;;
        b <- vec_get lambda (size_t_wrap (i + 1)) ;;
        _ <- CHECK (flt a b) ;;
        CHECK_increasing fuel' lambda (size_t_wrap (i + 1)) bound
      else Ret tt
  end.

Definition PiecewiseLinearSpectrum_new (l values : list Float)
  : outcome PiecewiseLinearSpectrum :=
  lambda <- vector_copy l ;;
  v <- vector_copy values ;;
  _ <- CHECK (size lambda =? size v) ;;
  _ <- CHECK_increasing (S (List.length lambda)) lambda 0
         (size_t_wrap (size lambda - 1)) ;;
  Ret {| pls_lambda := lambda; pls_v := v |}.

(** [front()] and [back()] of a vector. *)
Definition front {A : Type} (l : list A) : outcome A := vec_get l 0.
Definition back {A : Type} (l : list A) : outcome A := vec_get l (size l - 1).

(** Modelled from the spec: [DCHECK] (pbrt/util/check.h is not under
    src/) is [CHECK] in a build that keeps the debug checks and nothing in
    a build that drops them, where its condition is not evaluated. Which
    build it is, is a variable of the section. *)
Variable debug_build : bool.

Definition DCHECK (c : outcome bool) : outcome unit :=
  if debug_build then holds <- c ;; CHECK holds else Ret tt.

(** Lines 169-173 of [operator()]: the search, the DCHECK and the
    interpolation. The predicate handed to [FindInterval] takes an [int
    index] and reads [lambda[index]]; the result is stored in an [int
    offset]; [offset + 1] is [int] arithmetic; an [int] used as an index
    is converted to [size_t]. *)
Definition PiecewiseLinearSpectrum_interpolate (lambda v : list Float) (l : Float)
  : outcome Float :=
  found <- FindInterval (size lambda)
             (fun middle =>
                let index := int_of_size_t middle in
                li <- vec_get lambda (size_t_wrap index) ;;
                Ret (fle li l)) ;;
  let offset := int_of_size_t found in
  _ <- DCHECK (lo <- vec_get lambda (size_t_wrap offset) ;;
               if fge l lo then
                 next <- int_result (offset + 1) ;;
                 hi <- vec_get lambda (size_t_wrap next) ;;
                 Ret (fle l hi)
               else Ret false) ;;
  l0 <- vec_get lambda (size_t_wrap offset) ;;
  next <- int_result (offset + 1) ;;
  l1 <- vec_get lambda (size_t_wrap next) ;;
  let t := fdiv (fsub l l0) (fsub l1 l0) in
  v0 <- vec_get v (size_t_wrap offset) ;;
  v1 <- vec_get v (size_t_wrap next) ;;
  Ret (Lerp t v0 v1).

(** [operator()]. *)
Definition PiecewiseLinearSpectrum_eval (p : PiecewiseLinearSpectrum) (l : Float)
  : outcome Float :=
  let lambda := pls_lambda p in
  let v := pls_v p in
  match lambda with
  | [] => Ret zero
  | _ :: _ =>
      lf <- front lambda ;;
      if fle l lf then front v
      else
        lb <- back lambda ;;
        if fge l lb then back v
        else PiecewiseLinearSpectrum_interpolate lambda v l
  end.

(** The loop of [Read] over the [n = vals->size() / 2] pairs; it returns the
    warning of the first offending entry, or the two vectors. *)
Fixpoint Read_loop (fn : string) (vals : list Float) (todo : nat) (i : Z)
  (lambda v : list Float) : outcome (warning + list Float * list Float) :=
  match todo with
  | O => Ret (inr (lambda, v))
  | S todo' =>
      x <- vec_get vals (2 * i) ;;
      stop <- (if 0 <? i then
                 prev <- back lambda ;;
                 Ret (if fle x prev
                      then Some (NotIncreasing fn (int_of_size_t i) prev x)
                      else None)
               else Ret None) ;;
      match stop with
      | Some w => Ret (inl w)
      | None =>
          y <- vec_get vals (2 * i + 1) ;;
          Read_loop fn vals todo' (i + 1) (lambda ++ [x]) (v ++ [y])
      end
  end.

(** [Read]: the warnings emitted, and how the call ends; [Ret None] is the
    empty optional. *)
Definition PiecewiseLinearSpectrum_Read (fn : string)
  : list warning * outcome (option PiecewiseLinearSpectrum) :=
  match ReadFloatFile fn with
  | None => ([UnableToRead fn], Ret None)
  | Some vals =>
      if negb (size vals mod 2 =? 0) then ([ExtraValue fn], Ret None)
      else
        match Read_loop fn vals (Z.to_nat (size vals / 2)) 0 [] [] with
        | Ret (inl w) => ([w], Ret None)
        | Ret (inr (lambda, v)) =>
            ([], handle <- PiecewiseLinearSpectrum_new lambda v ;; Ret (Some handle))
        | CheckFailed => ([], CheckFailed)
        | OutOfBounds => ([], OutOfBounds)
        | SignedOverflow => ([], SignedOverflow)
        | AllocFailed => ([], AllocFailed)
        | OutOfFuel => ([], OutOfFuel)
        end
  end.

(** *** Sample of the analytic and composite kinds (spectrum.cpp 226-283) *)

(** [for (int i = 0; i < NSpectrumSamples; ++i) s[i] = f(i)], where a call
    of [f] may stop the process. *)
Fixpoint for_samples (f : nat -> outcome Float) (i todo : nat)
  : outcome SampledSpectrum :=
  match todo with
  | O => Ret []
  | S todo' =>
      x <- f i ;;
      rest <- for_samples f (S i) todo' ;;
      Ret (x :: rest)
  end.

Definition BlackbodySpectrum_Sample (T scale : Float) (lambda : SampledWavelengths)
  : outcome SampledSpectrum :=
  for_samples
    (fun i => bb <- Blackbody (at_ (swl_lambda lambda) i) T ;; Ret (fmul scale bb))
    0 NSpectrumSamples.

(** Modelled from the spec: the [SampledSpectrum] constructor from one
    value and the operators [Float * SampledSpectrum] and
    [SampledSpectrum * SampledSpectrum] (declared in pbrt/util/spectrum.h,
    not under src/), all component by component. *)
Definition SampledSpectrum_const (c : Float) : SampledSpectrum :=
  repeat c NSpectrumSamples.

Definition SampledSpectrum_scale (a : Float) (s : SampledSpectrum) : SampledSpectrum :=
  map (fun i => fmul a (at_ s i)) (seq 0 NSpectrumSamples).

Definition SampledSpectrum_mul (s1 s2 : SampledSpectrum) : SampledSpectrum :=
  map (fun i => fmul (at_ s1 i) (at_ s2 i)) (seq 0 NSpectrumSamples).

Definition ConstantSpectrum_Sample (c : Float) (_ : SampledWavelengths)
  : SampledSpectrum :=
  SampledSpectrum_const c.

Definition ScaledSpectrum_Sample (scale : Float) (s : SpectrumHandle)
  (lambda : SampledWavelengths) : SampledSpectrum :=
  SampledSpectrum_scale scale (spectrum_Sample s lambda).

Definition ProductSpectrum_Sample (s1 s2 : SpectrumHandle)
  (lambda : SampledWavelengths) : SampledSpectrum :=
  SampledSpectrum_mul (spectrum_Sample s1 lambda) (spectrum_Sample s2 lambda).

(** *** DenselySampledSpectrum (spectrum.cpp 299-306)

    The member initialisers run before the constructor's body: the table
    [v] is created from [lambdaMax - lambdaMin + 1], converted to the
    vector's [size_t] count, and only then CHECK_GE is reached. *)

Fixpoint DenselySampledSpectrum_fill (fuel : nat) (s : SpectrumHandle)
  (lambdaMin lambdaMax lambda : Z) (v : list Float) : outcome (list Float) :=
  match fuel with
  | O => OutOfFuel
  | S fuel' =>
      if lambda <=? lambdaMax then
        index <- int_result (lambda - lambdaMin) ;;
        v' <- vec_set v (size_t_wrap index)
                (spectrum_eval s (fadd (of_Z lambda) half)) ;;
        lambda' <- int_result (lambda + 1) ;;
        DenselySampledSpectrum_fill fuel' s lambdaMin lambdaMax lambda' v'
      else Ret v
  end.

Definition DenselySampledSpectrum_new (s : SpectrumHandle) (lambdaMin lambdaMax : Z)
  : outcome DenselySampledSpectrum :=
  d <- int_result (lambdaMax - lambdaMin) ;;
  n <- int_result (d + 1) ;;
  v <- vector_new (size_t_wrap n) ;;
  _ <- CHECK (lambdaMin <=? lambdaMax) ;;
  v' <- DenselySampledSpectrum_fill (S (List.length v)) s lambdaMin lambdaMax lambdaMin v ;;
  Ret {| dss_lambdaMin := lambdaMin; dss_lambdaMax := lambdaMax; dss_v := v' |}.

(** *** RGBSpectrum (spectrum.cpp 343-348) *)

(** The coefficient type of pbrt/util/colorspace.h, opaque here. *)
Variable RGBSigmoidPolynomial : Type.

Record RGBColorSpace : Type := {
  cs_illuminant : DenselySampledSpectrum;
  cs_ToRGBCoeffs : RGB -> RGBSigmoidPolynomial
}.

Record RGBSpectrum : Type := {
  rgbs_rgb : RGB;
  rgbs_scale : Float;
  rgbs_rsp : RGBSigmoidPolynomial;
  rgbs_illuminant : DenselySampledSpectrum   (* the object pointed to *)
}.

(** [std::max] of an initializer list: the first largest element under
    [operator<]. *)
Definition std_max3 (x y z : Float) : Float :=
  let m := x in
  let m := if flt m y then y else m in
  if flt m z then z else m.

(** Modelled from the spec: [RGB * Float] (pbrt/util/color.h is not under
    src/), component by component. *)
Definition RGB_scale (rgb : RGB) (a : Float) : RGB :=
  {| rgb_r := fmul (rgb_r rgb) a; rgb_g := fmul (rgb_g rgb) a;
     rgb_b := fmul (rgb_b rgb) a |}.

Definition RGBSpectrum_new (cs : RGBColorSpace) (rgb : RGB) : RGBSpectrum :=
  let m := std_max3 (rgb_r rgb) (rgb_g rgb) (rgb_b rgb) in
  let scale := if fgt m zero then fdiv half m else zero in
  {| rgbs_rgb := rgb;
     rgbs_scale := scale;
     rgbs_rsp := cs_ToRGBCoeffs cs (RGB_scale rgb scale);
     rgbs_illuminant := cs_illuminant cs |}.

(** *** SampledSpectrum::y, SampledSpectrum::ToXYZ (spectrum.cpp 372-405)

    Each loop is run with its accumulator and, beside it, the list of the
    divisors its [/] was applied to. *)

Definition y_step (Ys v : SampledSpectrum) (lambda : SampledWavelengths)
  (st : Float * list Float) (i : nat) : Float * list Float :=
  let '(ySum, divisors) := st in
  let pdf := at_ (swl_pdf lambda) i in
  if feq pdf zero then (ySum, divisors)
  else (fadd ySum (fdiv (fmul (at_ Ys i) (at_ v i)) pdf), divisors ++ [pdf]).

Definition SampledSpectrum_y_run (v : SampledSpectrum) (lambda : SampledWavelengths)
  : Float * list Float :=
  let Ys := spectrum_Sample SPDs_Y lambda in
  fold_left (y_step Ys v lambda) (seq 0 NSpectrumSamples) (zero, []).

Definition SampledSpectrum_y (v : SampledSpectrum) (lambda : SampledWavelengths)
  : Float :=
  let ySum := fst (SampledSpectrum_y_run v lambda) in
  fdiv ySum (fmul CIE_Y_integral (of_Z (Z.of_nat NSpectrumSamples))).

Definition ToXYZ_step (Xs Ys Zs v : SampledSpectrum) (lambda : SampledWavelengths)
  (st : XYZ * list Float) (i : nat) : XYZ * list Float :=
  let '(xyz, divisors) := st in
  let pdf := at_ (swl_pdf lambda) i in
  if feq pdf zero then (xyz, divisors)
  else
    ({| xyz_X := fadd (xyz_X xyz) (fdiv (fmul (at_ Xs i) (at_ v i)) pdf);
        xyz_Y := fadd (xyz_Y xyz) (fdiv (fmul (at_ Ys i) (at_ v i)) pdf);
        xyz_Z := fadd (xyz_Z xyz) (fdiv (fmul (at_ Zs i) (at_ v i)) pdf) |},
     divisors ++ [pdf; pdf; pdf]).

Definition SampledSpectrum_ToXYZ_run (v : SampledSpectrum) (lambda : SampledWavelengths)
  : XYZ * list Float :=
  let Xs := spectrum_Sample SPDs_X lambda in
  let Ys := spectrum_Sample SPDs_Y lambda in
  let Zs := spectrum_Sample SPDs_Z lambda in
  fold_left (ToXYZ_step Xs Ys Zs v lambda) (seq 0 NSpectrumSamples) (XYZ_zero, []).

Definition SampledSpectrum_ToXYZ (v : SampledSpectrum) (lambda : SampledWavelengths)
  : XYZ :=
  let xyz := fst (SampledSpectrum_ToXYZ_run v lambda) in
  XYZ_div xyz (fmul CIE_Y_integral (of_Z (Z.of_nat NSpectrumSamples))).

(** *** SPDs::GetNamed, SPDs::FindMatchingNamed (spectrum.cpp 1928-1946)

    [namedSPDs] is a [std::map]: its entries are listed in key order and
    no key occurs twice. *)

Fixpoint GetNamed_in (m : list (string * SpectrumHandle)) (name : string)
  : option SpectrumHandle :=
  match m with
  | [] => None
  | (k, h) :: rest => if String.eqb k name then Some h else GetNamed_in rest name
  end.

Definition GetNamed (name : string) : option SpectrumHandle :=
  GetNamed_in namedSPDs name.

Fixpoint lambdas_match (a b : SpectrumHandle) (ls : list Float) : bool :=
  match ls with
  | [] => true
  | lambda :: rest =>
      if fne (spectrum_eval a lambda) (spectrum_eval b lambda) then false
      else lambdas_match a b rest
  end.

Definition sampledLambdasMatch (a b : SpectrumHandle) : bool :=
  lambdas_match a b wls.

Fixpoint FindMatchingNamed_in (m : list (string * SpectrumHandle))
  (s : SpectrumHandle) : string :=
  match m with
  | [] => EmptyString
  | spd :: rest =>
      if sampledLambdasMatch s (snd spd) then fst spd
      else FindMatchingNamed_in rest s
  end.

Definition FindMatchingNamed (s : SpectrumHandle) : string :=
  FindMatchingNamed_in namedSPDs s.

(** *** PiecewiseLinearSpectrum::MaxValue (spectrum.cpp 176-179) *)

(** [std::max_element]: the first largest element under [operator<],
    scanning from [largest]. *)
Fixpoint max_element_from (largest : Float) (rest : list Float) : Float :=
  match rest with
  | [] => largest
  | x :: rest' => max_element_from (if flt largest x then x else largest) rest'
  end.

Definition PiecewiseLinearSpectrum_MaxValue (p : PiecewiseLinearSpectrum) : Float :=
  match pls_v p with
  | [] => zero
  | x :: rest => max_element_from x rest
  end.

(** *** MakeSpectrumFromInterleaved (spectrum.cpp 1646-1663) *)

(** The loop over the [n] pairs: both vectors are filled in place and each
    wavelength after the first is CHECKed against the one before it. *)
Fixpoint Interleaved_loop (samples : list Float) (todo : nat) (i : Z)
  (lambda v : list Float) : outcome (list Float * list Float) :=
  match todo with
  | O => Ret (lambda, v)
  | S todo' =>
      x <- vec_get samples (2 * i) ;;
      lambda' <- vec_set lambda i x ;;
      y <- vec_get samples (2 * i + 1) ;;
      v' <- vec_set v i y ;;
      _ <- (if 0 <? i then
              cur <- vec_get lambda' i ;;
              prev <- vec_get lambda' (i - 1) ;;
              CHECK (fgt cur prev)
            else Ret tt) ;;
      Interleaved_loop samples todo' (i + 1) lambda' v'
  end.

(** [SpectrumToY] on a spectrum whose evaluation may stop the process (the
    piecewise-linear spectrum just built). *)
Fixpoint for_lambda_stop {A : Type} (fuel : nat) (body : Float -> A -> outcome A)
  (lambda : Float) (acc : A) : outcome A :=
  match fuel with
  | O => OutOfFuel
  | S fuel' =>
      if fle lambda LambdaMax then
        acc' <- body lambda acc ;;
        for_lambda_stop fuel' body (fadd lambda one) acc'
      else Ret acc
  end.

Definition SpectrumToY_of (fuel : nat) (s : Float -> outcome Float) : outcome Float :=
  y <- for_lambda_stop fuel
         (fun lambda y =>
            sl <- s lambda ;;
            Ret (fadd y (fmul (spectrum_eval SPDs_Y lambda) sl)))
         LambdaMin zero ;;
  Ret (fdiv y CIE_Y_integral).

(** What [MakeSpectrumFromInterleaved] hands back: the piecewise-linear
    spectrum, or a [ScaledSpectrum] over it. *)
Inductive InterleavedSpectrum : Type :=
| Interleaved_plain (p : PiecewiseLinearSpectrum)
| Interleaved_scaled (scale : Float) (p : PiecewiseLinearSpectrum).

Definition MakeSpectrumFromInterleaved (fuel : nat) (samples : list Float)
  (normalize : bool) : outcome InterleavedSpectrum :=
  _ <- CHECK (0 =? size samples mod 2) ;;
  let n := int_of_size_t (size samples / 2) in
  lambda0 <- vector_new (size_t_wrap n) ;;
  v0 <- vector_new (size_t_wrap n) ;;
  lv <- Interleaved_loop samples (Z.to_nat (size_t_wrap n)) 0 lambda0 v0 ;;
  spec <- PiecewiseLinearSpectrum_new (fst lv) (snd lv) ;;
  if normalize then
    y <- SpectrumToY_of fuel (PiecewiseLinearSpectrum_eval spec) ;;
    Ret (Interleaved_scaled (fdiv one y) spec)
  else Ret (Interleaved_plain spec).

(** ** Definitions the properties are stated with *)

(** Strictly increasing under [operator<]: each element is below its
    successor. *)
Fixpoint increasing (l : list Float) : bool :=
  match l with
  | a :: (b :: _) as t => flt a b && increasing t
  | _ => true
  end.

(** The integer wavelengths 360, 361, ..., 830. *)
Definition integer_wavelengths : list Z := map Z.of_nat (seq 360 471).

(** The sum of [f lambda * s lambda] over the integer wavelengths,
    accumulated from 0 in increasing order of wavelength. *)
Definition Riemann_sum (f s : Float -> Float) : Float :=
  fold_left (fun acc k => fadd acc (fmul (f (of_Z k)) (s (of_Z k))))
            integer_wavelengths zero.

(** Structural equality of two [Float]s. *)
Definition same_float (a b : Float) : bool :=
  match a, b with
  | S754_zero s, S754_zero s' => Bool.eqb s s'
  | S754_infinity s, S754_infinity s' => Bool.eqb s s'
  | S754_nan, S754_nan => true
  | S754_finite s m e, S754_finite s' m' e' =>
      Bool.eqb s s' && Pos.eqb m m' && Z.eqb e e'
  | _, _ => false
  end.

(** The samples that contribute: those whose PDF does not compare equal
    to 0, in index order. *)
Definition contributing (lambda : SampledWavelengths) : list nat :=
  filter (fun i => negb (feq (at_ (swl_pdf lambda) i) zero)) (seq 0 NSpectrumSamples).

(** The sum over the contributing samples of [Cs[i] * v[i] / pdf[i]],
    accumulated from 0 in index order. *)
Definition pdf_weighted_sum (Cs v : SampledSpectrum) (lambda : SampledWavelengths)
  : Float :=
  fold_left
    (fun acc i => fadd acc (fdiv (fmul (at_ Cs i) (at_ v i)) (at_ (swl_pdf lambda) i)))
    (contributing lambda) zero.



(** The positive normal values below 2^125: a mantissa of 24 binary digits
    at an exponent from -149 to 101, that is 2^-126 <= m < 2^125. *)
Definition normal_below_2_125 (m : Float) : bool :=
  match m with
  | S754_finite false M e =>
      (2 ^ 23 <=? Z.pos M) && (Z.pos M <? 2 ^ 24) && (-149 <=? e) && (e <=? 101)
  | _ => false
  end.

(** The largest [Float] below 0.5: 0.5 - 2^-25. *)
Definition below_half : Float := of_bits 16777215 (-25).



(** [s] and [h] compare equal ([==]) at each of the ten probe
    wavelengths. *)
Definition agree_on_probes (s h : SpectrumHandle) : Prop :=
  Forall (fun lambda => feq (spectrum_eval s lambda) (spectrum_eval h lambda) = true) wls.

(** The table built for an ordered range: one entry per integer wavelength,
    the entry of [lambda] holding the spectrum at [lambda + 0.5f]. *)
Definition DenselySampledSpectrum_table (s : SpectrumHandle) (lambdaMin lambdaMax : Z)
  : list Float :=
  map (fun j => spectrum_eval s (fadd (of_Z (lambdaMin + Z.of_nat j)) half))
      (seq 0 (Z.to_nat (lambdaMax - lambdaMin + 1))).

(** A file of [(lambda, value)] pairs as the flat list of its values. *)
Definition flatten_pairs (ps : list (Float * Float)) : list Float :=
  flat_map (fun p => [fst p; snd p]) ps.

(** The first entry whose wavelength is [<=] the one before it, with the
    warning [Read] gives for it. *)
Fixpoint first_bad (fn : string) (prev : option Float) (i : Z)
  (ps : list (Float * Float)) : option warning :=
  match ps with
  | [] => None
  | p :: rest =>
      match prev with
      | Some q =>
          if fle (fst p) q then Some (NotIncreasing fn (int_of_size_t i) q (fst p))
          else first_bad fn (Some (fst p)) (i + 1) rest
      | None => first_bad fn (Some (fst p)) (i + 1) rest
      end
  end.

(** The wavelength of the last pair read so far. *)
Definition last_lambda (done : list (Float * Float)) : option Float :=
  match rev done with
  | [] => None
  | q :: _ => Some (fst q)
  end.

(** The value [operator()] returns, where it returns. *)
Definition PiecewiseLinearSpectrum_value (p : PiecewiseLinearSpectrum) (l : Float)
  : Float :=
  match PiecewiseLinearSpectrum_eval p l with
  | Ret y => y
  | _ => nan
  end.

(** * Properties *)

(** ** Order facts about the comparison of [SpecFloat]

    [SFcompare] orders finite values by sign, then exponent, then mantissa;
    the facts below are what the binary search over a strictly increasing
    array needs. They hold for every [spec_float]. *)

(** Case analysis on every sign bit in the context. *)
Local Ltac destruct_signs :=
  repeat match goal with
         | s : bool |- _ => first [constr_eq s debug_build; fail 1 | destruct s]
         end.

Section FloatOrder.

Local Ltac cmp_cases :=
  repeat match goal with
         | |- context [Pos.compare_cont Eq ?a ?b] =>
             change (Pos.compare_cont Eq a b) with (Pos.compare a b)
         end;
  repeat match goal with
         | |- context [Z.compare ?a ?b] => destruct (Z.compare_spec a b)
         | |- context [Pos.compare ?a ?b] => destruct (Pos.compare_spec a b)
         end;
  simpl; intros; subst; try congruence; try lia.

Lemma SFcompare_Lt_trans (a b c : spec_float) :
  SFcompare a b = Some Lt -> SFcompare b c = Some Lt -> SFcompare a c = Some Lt.
Proof.
  destruct a as [sa|sa| |sa ma ea], b as [sb|sb| |sb mb eb],
           c as [sc|sc| |sc mc ec]; simpl; try discriminate;
    destruct_signs;
    simpl; try congruence; cmp_cases.
Qed.

Lemma SFcompare_Lt_Gt (a b : spec_float) :
  SFcompare a b = Some Lt -> SFcompare b a = Some Gt.
Proof.
  destruct a as [sa|sa| |sa ma ea], b as [sb|sb| |sb mb eb];
    simpl; try discriminate;
    destruct_signs;
    simpl; try congruence; cmp_cases.
Qed.

Lemma flt_trans (a b c : Float) :
  flt a b = true -> flt b c = true -> flt a c = true.
Proof.
  unfold flt, SFltb. intros Hab Hbc.
  destruct (SFcompare a b) as [[]|] eqn:E1; try discriminate.
  destruct (SFcompare b c) as [[]|] eqn:E2; try discriminate.
  now rewrite (SFcompare_Lt_trans a b c E1 E2).
Qed.

Lemma flt_fle (a b : Float) : flt a b = true -> fle a b = true.
Proof.
  unfold flt, fle, SFltb, SFleb.
  destruct (SFcompare a b) as [[]|]; congruence.
Qed.

Lemma flt_not_fle (a b : Float) : flt a b = true -> fle b a = false.
Proof.
  unfold flt, fle, SFltb, SFleb. intros H.
  destruct (SFcompare a b) as [[]|] eqn:E; try discriminate.
  now rewrite (SFcompare_Lt_Gt a b E).
Qed.

Lemma flt_irrefl (a : Float) : flt a a = false.
Proof.
  destruct (flt a a) eqn:E; [|reflexivity].
  pose proof (flt_not_fle a a E) as H1. pose proof (flt_fle a a E) as H2.
  congruence.
Qed.

Lemma fle_trans (a b c : Float) :
  fle a b = true -> fle b c = true -> fle a c = true.
Proof.
  unfold fle, SFleb.
  destruct a as [sa|sa| |sa ma ea], b as [sb|sb| |sb mb eb],
           c as [sc|sc| |sc mc ec]; simpl; try discriminate;
    destruct_signs;
    simpl; try congruence; cmp_cases.
Qed.

End FloatOrder.

(** ** More order facts: comparisons of values that are not NaN *)

Local Ltac compare_cases :=
  repeat match goal with
         | |- context [Pos.compare_cont Eq ?a ?b] =>
             change (Pos.compare_cont Eq a b) with (Pos.compare a b)
         end;
  repeat match goal with
         | |- context [Z.compare ?a ?b] => destruct (Z.compare_spec a b)
         | |- context [Pos.compare ?a ?b] => destruct (Pos.compare_spec a b)
         end;
  simpl; intros; subst; try congruence; try lia.

Lemma SFcompare_Gt_Lt (a b : spec_float) :
  SFcompare a b = Some Gt -> SFcompare b a = Some Lt.
Proof.
  destruct a as [sa|sa| |sa ma ea], b as [sb|sb| |sb mb eb];
    simpl; try discriminate;
    destruct_signs;
    simpl; try congruence; compare_cases.
Qed.

Lemma SFcompare_refl (a : spec_float) : isnan a = false -> SFcompare a a = Some Eq.
Proof.
  destruct a as [s|s| |s m e]; simpl; try discriminate; intros _;
    destruct s; try reflexivity; rewrite Z.compare_refl;
    change (Pos.compare_cont Eq m m) with (Pos.compare m m);
    now rewrite Pos.compare_refl.
Qed.

Lemma SFcompare_not_nan (a b : spec_float) :
  isnan a = false -> isnan b = false -> exists c, SFcompare a b = Some c.
Proof.
  destruct a, b; simpl; try discriminate; intros _ _; eexists; reflexivity.
Qed.

Lemma fle_refl (a : Float) : isnan a = false -> fle a a = true.
Proof. intros H. unfold fle, SFleb. now rewrite SFcompare_refl. Qed.

Lemma feq_refl (a : Float) : isnan a = false -> feq a a = true.
Proof. intros H. unfold feq, SFeqb. now rewrite SFcompare_refl. Qed.

(** Two values that are not NaN are ordered one way or the other. *)
Lemma fle_or_flt (a b : Float) :
  isnan a = false -> isnan b = false -> fle a b = true \/ flt b a = true.
Proof.
  intros Ha Hb. destruct (SFcompare_not_nan a b Ha Hb) as [c Hc].
  unfold fle, flt, SFleb, SFltb. destruct c.
  - left. now rewrite Hc.
  - left. now rewrite Hc.
  - right. now rewrite (SFcompare_Gt_Lt a b Hc).
Qed.

Lemma flt_not_nan (a b : Float) :
  flt a b = true -> isnan a = false /\ isnan b = false.
Proof. destruct a, b; simpl; try discriminate; auto. Qed.

Lemma fle_nan_l (a b : Float) : isnan a = true -> fle a b = false.
Proof. destruct a; simpl; try discriminate; reflexivity. Qed.

Lemma fle_nan_r (a b : Float) : isnan b = true -> fle a b = false.
Proof. destruct b; simpl; try discriminate; destruct a; reflexivity. Qed.

(** ** Vectors *)

Lemma size_nonneg {A : Type} (l : list A) : 0 <= size l.
Proof. unfold size. lia. Qed.

Lemma size_app {A : Type} (l1 l2 : list A) : size (l1 ++ l2) = size l1 + size l2.
Proof. unfold size. rewrite length_app. lia. Qed.

Lemma size_cons {A : Type} (a : A) (l : list A) : size (a :: l) = size l + 1.
Proof. unfold size. simpl List.length. lia. Qed.

Lemma vec_get_nth {A : Type} (l : list A) (i : Z) (d : A) :
  0 <= i < size l -> vec_get l i = Ret (nth (Z.to_nat i) l d).
Proof.
  intros Hi. unfold vec_get.
  replace ((0 <=? i) && (i <? size l)) with true by (symmetry; apply andb_true_iff; lia).
  destruct (nth_error l (Z.to_nat i)) as [a|] eqn:E.
  - now rewrite (nth_error_nth _ _ d E).
  - apply nth_error_None in E. unfold size in Hi. lia.
Qed.

Lemma vec_get_out {A : Type} (l : list A) (i : Z) :
  ~ (0 <= i < size l) -> vec_get l i = OutOfBounds.
Proof.
  intros Hi. unfold vec_get.
  destruct ((0 <=? i) && (i <? size l)) eqn:E; [|reflexivity].
  apply andb_true_iff in E. lia.
Qed.

Lemma vec_get_app_r {A : Type} (pre rest : list A) (i : Z) :
  0 <= i -> vec_get (pre ++ rest) (size pre + i) = vec_get rest i.
Proof.
  intros Hi. unfold vec_get. rewrite size_app.
  replace (0 <=? size pre + i) with true by (pose proof (size_nonneg pre); symmetry; apply Z.leb_le; lia).
  replace (0 <=? i) with true by (symmetry; apply Z.leb_le; lia).
  replace (size pre + i <? size pre + size rest) with (i <? size rest)
    by (apply eq_true_iff_eq; rewrite !Z.ltb_lt; lia).
  replace (Z.to_nat (size pre + i)) with (List.length pre + Z.to_nat i)%nat
    by (unfold size; lia).
  now rewrite nth_error_app2, Nat.add_comm, Nat.add_sub by lia.
Qed.

Lemma vec_get_0_cons {A : Type} (a : A) (t : list A) : vec_get (a :: t) 0 = Ret a.
Proof.
  rewrite (vec_get_nth (a :: t) 0 a); [reflexivity|].
  rewrite size_cons. pose proof (size_nonneg t). lia.
Qed.

Lemma vec_get_1_cons {A : Type} (a b : A) (t : list A) :
  vec_get (a :: b :: t) 1 = Ret b.
Proof.
  rewrite (vec_get_nth (a :: b :: t) 1 a); [reflexivity|].
  rewrite !size_cons. pose proof (size_nonneg t). lia.
Qed.

Lemma size_t_wrap_small (z : Z) : 0 <= z < size_t_modulus -> size_t_wrap z = z.
Proof. intros H. unfold size_t_wrap. now apply Z.mod_small. Qed.

Lemma int_result_in (z : Z) : INT_MIN <= z <= INT_MAX -> int_result z = Ret z.
Proof.
  intros H. unfold int_result, in_int.
  now rewrite (proj2 (Z.leb_le _ _) (proj1 H)), (proj2 (Z.leb_le _ _) (proj2 H)).
Qed.

Lemma int_of_size_t_small (z : Z) : 0 <= z <= INT_MAX -> int_of_size_t z = z.
Proof.
  intros H. unfold int_of_size_t. assert (Hm : INT_MAX < 2 ^ 32) by reflexivity.
  rewrite Z.mod_small by lia. now rewrite (proj2 (Z.leb_le _ _)) by lia.
Qed.

Lemma Clamp_range (x lo hi : Z) : lo <= hi -> lo <= Clamp x lo hi <= hi.
Proof.
  intros H. unfold Clamp.
  destruct (x <? lo) eqn:E1; [lia|]. apply Z.ltb_ge in E1.
  destruct (hi <? x) eqn:E2; [lia|]. apply Z.ltb_ge in E2. lia.
Qed.

Lemma vector_copy_Ret (l l' : list Float) :
  vector_copy l = Ret l' -> l' = l /\ size l <= vector_max_size.
Proof.
  unfold vector_copy. destruct (size l <=? vector_max_size) eqn:E; [|discriminate].
  intros H. inversion H; subst. apply Z.leb_le in E. split; [reflexivity | exact E].
Qed.

Lemma vector_max_size_lt : vector_max_size < size_t_modulus.
Proof. reflexivity. Qed.

(** ** FindInterval: the bisection finds the boundary of a monotone predicate *)

Lemma FindInterval_loop_boundary (pred : Z -> outcome bool) (size k : Z) :
  (forall j, 0 <= j < k -> pred j = Ret true) ->
  (forall j, k <= j < size -> pred j = Ret false) ->
  forall (fuel : nat) (first len : Z),
    0 <= first -> first <= k <= first + len -> first + len <= size ->
    len <= Z.of_nat fuel ->
    FindInterval_loop fuel pred first len = Ret k.
Proof.
  intros Hlo Hhi. induction fuel as [|fuel IH]; intros first len H0 Hk Hsz Hfuel.
  - simpl. f_equal. lia.
  - cbn [FindInterval_loop]. destruct (0 <? len) eqn:Hlen.
    + apply Z.ltb_lt in Hlen. cbv zeta. rewrite Z.shiftr_div_pow2 by lia.
      change (2 ^ 1) with 2.
      assert (Hhalf : 0 <= len / 2 < len).
      { pose proof (Z_div_mod_eq_full len 2). pose proof (Z.mod_pos_bound len 2). lia. }
      destruct (Z_lt_le_dec (first + len / 2) k) as [Hlt|Hge].
      * rewrite Hlo by lia. cbn [bind]. apply IH; lia.
      * rewrite Hhi by lia. cbn [bind]. apply IH; lia.
    + apply Z.ltb_ge in Hlen. f_equal. lia.
Qed.

Lemma FindInterval_boundary (pred : Z -> outcome bool) (size k : Z) :
  0 <= k <= size ->
  (forall j, 0 <= j < k -> pred j = Ret true) ->
  (forall j, k <= j < size -> pred j = Ret false) ->
  FindInterval size pred = Ret (Clamp (k - 1) 0 (size - 2)).
Proof.
  intros Hk Hlo Hhi. unfold FindInterval.
  now rewrite (FindInterval_loop_boundary pred size k Hlo Hhi) by lia.
Qed.

(** ** PiecewiseLinearSpectrum: the constructor *)

Lemma CHECK_increasing_spec (rest : list Float) :
  forall (pre : list Float) (fuel : nat),
    rest <> [] ->
    size (pre ++ rest) <= size_t_modulus ->
    (List.length rest <= fuel)%nat ->
    CHECK_increasing fuel (pre ++ rest) (size pre) (size (pre ++ rest) - 1)
    = if increasing rest then Ret tt else CheckFailed.
Proof.
  induction rest as [|a t IH]; intros pre fuel Hne Hsz Hfuel; [congruence|].
  destruct fuel as [|fuel]; [simpl in Hfuel; lia|].
  destruct t as [|b t'].
  - cbn [CHECK_increasing increasing]. rewrite size_app, size_cons.
    change (size (@nil Float)) with 0.
    replace (size pre + (0 + 1) - 1) with (size pre) by lia.
    now rewrite Z.ltb_irrefl.
  - cbn [CHECK_increasing].
    assert (Hlt : size pre < size (pre ++ a :: b :: t') - 1).
    { rewrite size_app, !size_cons. pose proof (size_nonneg t'). lia. }
    rewrite (proj2 (Z.ltb_lt _ _) Hlt).
    pose proof (size_nonneg pre) as Hpre.
    rewrite size_t_wrap_small by lia.
    replace (vec_get (pre ++ a :: b :: t') (size pre)) with (Ret a).
    2:{ rewrite <- (Z.add_0_r (size pre)) at 1.
        rewrite vec_get_app_r by lia. symmetry. apply vec_get_0_cons. }
    replace (vec_get (pre ++ a :: b :: t') (size pre + 1)) with (Ret b).
    2:{ rewrite vec_get_app_r by lia. symmetry. apply vec_get_1_cons. }
    cbn [bind increasing]. destruct (flt a b); cbn [CHECK bind andb]; [|reflexivity].
    replace (pre ++ a :: b :: t') with ((pre ++ [a]) ++ b :: t')
      by (now rewrite <- app_assoc).
    replace (size pre + 1) with (size (pre ++ [a]))
      by (rewrite size_app, size_cons; reflexivity).
    apply IH; [congruence | now rewrite <- app_assoc | simpl in *; lia].
Qed.

(** A non-empty wavelength array: the constructor returns exactly when the
    two arrays have one size and the wavelengths increase strictly, and
    fails a CHECK otherwise. *)
Lemma PiecewiseLinearSpectrum_new_nonempty (a : Float) (t values : list Float) :
  size (a :: t) <= vector_max_size ->
  size values <= vector_max_size ->
  PiecewiseLinearSpectrum_new (a :: t) values
  = if size (a :: t) =? size values then
      if increasing (a :: t)
      then Ret {| pls_lambda := a :: t; pls_v := values |}
      else CheckFailed
    else CheckFailed.
Proof.
  intros Hl Hv. unfold PiecewiseLinearSpectrum_new, vector_copy.
  rewrite (proj2 (Z.leb_le _ _) Hl), (proj2 (Z.leb_le _ _) Hv). cbn [bind].
  destruct (size (a :: t) =? size values); cbn [CHECK bind]; [|reflexivity].
  pose proof vector_max_size_lt as Hmax.
  assert (Hpos : 1 <= size (a :: t))
    by (rewrite size_cons; pose proof (size_nonneg t); lia).
  rewrite size_t_wrap_small by lia.
  pose proof (CHECK_increasing_spec (a :: t) [] (S (List.length (a :: t)))) as H.
  cbn [app] in H. change (size (@nil Float)) with 0 in H.
  rewrite H; [|congruence|lia|lia].
  now destruct (increasing (a :: t)).
Qed.

Lemma PiecewiseLinearSpectrum_new_Ret (l values : list Float)
  (p : PiecewiseLinearSpectrum) :
  l <> [] ->
  PiecewiseLinearSpectrum_new l values = Ret p ->
  p = {| pls_lambda := l; pls_v := values |}
  /\ size l = size values /\ increasing l = true /\ size l <= vector_max_size.
Proof.
  intros Hne H. destruct l as [|a t]; [congruence|].
  destruct (Z_le_gt_dec (size (a :: t)) vector_max_size) as [Hl|Hl].
  2:{ unfold PiecewiseLinearSpectrum_new, vector_copy in H.
      rewrite (proj2 (Z.leb_gt _ _)) in H by lia. discriminate. }
  destruct (Z_le_gt_dec (size values) vector_max_size) as [Hv|Hv].
  2:{ unfold PiecewiseLinearSpectrum_new, vector_copy in H.
      rewrite (proj2 (Z.leb_le _ _) Hl), (proj2 (Z.leb_gt _ _)) in H by lia.
      discriminate. }
  rewrite PiecewiseLinearSpectrum_new_nonempty in H by assumption.
  destruct (size (a :: t) =? size values) eqn:E; [|discriminate].
  destruct (increasing (a :: t)) eqn:I; [|discriminate].
  apply Z.eqb_eq in E. inversion H. auto.
Qed.

(** C2: the constructor on the empty pair. Both arrays are empty, so
    CHECK_EQ passes; [lambda.size() - 1] is computed in [size_t] and wraps
    to 2^64 - 1, the loop body runs with [i = 0] and indexes [lambda[0]]
    of an empty vector. *)
Theorem PiecewiseLinearSpectrum_new_empty :
  size_t_wrap (size (@nil Float) - 1) = 2 ^ 64 - 1
  /\ PiecewiseLinearSpectrum_new [] [] = OutOfBounds.
Proof. split; reflexivity. Qed.

(** The other cases of C2 hold: on non-empty arrays of one size with
    strictly increasing wavelengths the constructor returns the object. *)
Lemma PiecewiseLinearSpectrum_new_ok (l values : list Float) :
  l <> [] -> size l <= vector_max_size ->
  size l = size values -> increasing l = true ->
  PiecewiseLinearSpectrum_new l values = Ret {| pls_lambda := l; pls_v := values |}.
Proof.
  intros Hne Hl Hsz Hinc. destruct l as [|a t]; [congruence|].
  rewrite PiecewiseLinearSpectrum_new_nonempty by lia.
  now rewrite (proj2 (Z.eqb_eq _ _) Hsz), Hinc.
Qed.

(** A size mismatch is a fatal assertion. *)
Lemma PiecewiseLinearSpectrum_new_size_mismatch (l values : list Float) :
  size l <= vector_max_size -> size values <= vector_max_size ->
  size l <> size values ->
  PiecewiseLinearSpectrum_new l values = CheckFailed.
Proof.
  intros Hl Hv Hsz. unfold PiecewiseLinearSpectrum_new, vector_copy.
  rewrite (proj2 (Z.leb_le _ _) Hl), (proj2 (Z.leb_le _ _) Hv). cbn [bind].
  now rewrite (proj2 (Z.eqb_neq _ _) Hsz).
Qed.

(** A pair of neighbours that does not increase is a fatal assertion. *)
Lemma PiecewiseLinearSpectrum_new_not_increasing (l values : list Float) :
  l <> [] -> size l <= vector_max_size ->
  size l = size values -> increasing l = false ->
  PiecewiseLinearSpectrum_new l values = CheckFailed.
Proof.
  intros Hne Hl Hsz Hinc. destruct l as [|a t]; [congruence|].
  rewrite PiecewiseLinearSpectrum_new_nonempty by lia.
  now rewrite (proj2 (Z.eqb_eq _ _) Hsz), Hinc.
Qed.

(** ** PiecewiseLinearSpectrum: evaluation *)

Lemma increasing_adjacent (l : list Float) (d : Float) :
  increasing l = true ->
  forall j : nat, (S j < List.length l)%nat -> flt (nth j l d) (nth (S j) l d) = true.
Proof.
  induction l as [|a t IH]; intros Hinc j Hj; [simpl in Hj; lia|].
  destruct t as [|b t']; [simpl in Hj; lia|].
  cbn [increasing] in Hinc. apply andb_true_iff in Hinc as [Hab Ht].
  destruct j as [|j]; [exact Hab|].
  change (flt (nth j (b :: t') d) (nth (S j) (b :: t') d) = true).
  apply IH; [exact Ht | simpl in *; lia].
Qed.

Lemma increasing_pairwise (l : list Float) (d : Float) :
  increasing l = true ->
  forall j k : nat, (j < k)%nat -> (k < List.length l)%nat ->
    flt (nth j l d) (nth k l d) = true.
Proof.
  intros Hinc j k Hjk. induction Hjk as [|k Hjk IH]; intros Hk.
  - now apply increasing_adjacent.
  - apply flt_trans with (nth k l d); [apply IH; lia|].
    now apply increasing_adjacent.
Qed.

Lemma increasing_le (l : list Float) (d : Float) :
  increasing l = true ->
  forall j k : nat, (j <= k)%nat -> (k < List.length l)%nat ->
    j = k \/ flt (nth j l d) (nth k l d) = true.
Proof.
  intros Hinc j k Hjk Hk. destruct (Nat.eq_dec j k) as [->|Hne]; [now left|].
  right. apply increasing_pairwise; [assumption|lia|assumption].
Qed.

(** The predicate handed to [FindInterval], inside an array of at most
    INT_MAX entries. *)
Lemma interpolate_pred (l : list Float) (x : Float) (j : Z) :
  size l <= INT_MAX -> 0 <= j < size l ->
  (li <- vec_get l (size_t_wrap (int_of_size_t j)) ;; Ret (fle li x))
  = Ret (fle (nth (Z.to_nat j) l nan) x).
Proof.
  intros Hmax Hj.
  assert (Hmod : INT_MAX < size_t_modulus) by reflexivity.
  rewrite int_of_size_t_small, size_t_wrap_small by lia.
  now rewrite (vec_get_nth l j nan) by lia.
Qed.

(** Lines 169-173 once the index [k] at which the predicate turns false is
    known: the offset is [k - 1] clamped, the DCHECK compares [x] with the
    two wavelengths at the offset, and the value is their [Lerp]. *)
Lemma PiecewiseLinearSpectrum_interpolate_boundary
  (l values : list Float) (x : Float) (k : Z) :
  size l = size values -> 2 <= size l -> size l <= INT_MAX ->
  0 <= k <= size l ->
  (forall j, 0 <= j < k -> fle (nth (Z.to_nat j) l nan) x = true) ->
  (forall j, k <= j < size l -> fle (nth (Z.to_nat j) l nan) x = false) ->
  let o := Z.to_nat (Clamp (k - 1) 0 (size l - 2)) in
  PiecewiseLinearSpectrum_interpolate l values x
  = if debug_build && negb (fge x (nth o l nan) && fle x (nth (S o) l nan))
    then CheckFailed
    else Ret (Lerp (fdiv (fsub x (nth o l nan)) (fsub (nth (S o) l nan) (nth o l nan)))
                   (nth o values nan) (nth (S o) values nan)).
Proof.
  intros Hsz H2 Hmax Hk Hlo Hhi. cbv zeta.
  unfold PiecewiseLinearSpectrum_interpolate.
  rewrite (FindInterval_boundary _ (size l) k Hk);
    [| intros j Hj; cbv beta zeta; rewrite interpolate_pred by lia;
       now rewrite Hlo by lia
     | intros j Hj; cbv beta zeta; rewrite interpolate_pred by lia;
       now rewrite Hhi by lia].
  cbn [bind]. cbv zeta.
  pose proof (Clamp_range (k - 1) 0 (size l - 2) ltac:(lia)) as Ho.
  set (o := Clamp (k - 1) 0 (size l - 2)) in *.
  assert (Hint : INT_MIN = - 2 ^ 31 /\ INT_MAX = 2 ^ 31 - 1 /\ size_t_modulus = 2 ^ 64)
    by (repeat split; reflexivity).
  rewrite (int_of_size_t_small o) by lia.
  rewrite (size_t_wrap_small o) by lia.
  rewrite (int_result_in (o + 1)) by lia. cbn [bind].
  rewrite (size_t_wrap_small (o + 1)) by lia.
  rewrite (vec_get_nth l o nan), (vec_get_nth l (o + 1) nan),
    (vec_get_nth values o nan), (vec_get_nth values (o + 1) nan) by lia.
  replace (Z.to_nat (o + 1)) with (S (Z.to_nat o)) by lia.
  cbn [bind]. unfold DCHECK, CHECK.
  destruct debug_build; cbn [andb bind]; [|reflexivity].
  destruct (fge x (nth (Z.to_nat o) l nan)); cbn [andb bind negb]; [|reflexivity].
  now destruct (fle x (nth (S (Z.to_nat o)) l nan)).
Qed.

(** The three branches of [operator()] on a non-empty spectrum whose two
    arrays have one size. *)
Lemma PiecewiseLinearSpectrum_eval_branches (l values : list Float) (x : Float) :
  l <> [] -> size l = size values ->
  let n := List.length l in
  PiecewiseLinearSpectrum_eval {| pls_lambda := l; pls_v := values |} x
  = if fle x (nth 0 l nan) then Ret (nth 0 values nan)
    else if fge x (nth (n - 1) l nan) then Ret (nth (n - 1) values nan)
    else PiecewiseLinearSpectrum_interpolate l values x.
Proof.
  intros Hne Hsz. cbv zeta.
  assert (Hn : (1 <= List.length l)%nat) by (destruct l; [congruence | simpl; lia]).
  assert (Hlen : List.length values = List.length l) by (unfold size in Hsz; lia).
  unfold PiecewiseLinearSpectrum_eval. cbn [pls_lambda pls_v].
  destruct l as [|a t] eqn:El; [congruence|]. rewrite <- El in *.
  unfold front, back.
  rewrite (vec_get_nth l 0 nan) by (unfold size; lia). cbn [bind].
  change (Z.to_nat 0) with 0%nat.
  destruct (fle x (nth 0 l nan)).
  { rewrite (vec_get_nth values 0 nan) by (unfold size; lia). reflexivity. }
  rewrite (vec_get_nth l (size l - 1) nan) by (unfold size; lia). cbn [bind].
  replace (Z.to_nat (size l - 1)) with (List.length l - 1)%nat by (unfold size; lia).
  destruct (fge x (nth (List.length l - 1) l nan)); [|reflexivity].
  rewrite (vec_get_nth values (size values - 1) nan) by (unfold size; lia).
  do 2 f_equal. unfold size. lia.
Qed.

(** C5: evaluation of a constructed, non-empty piecewise-linear spectrum.
    At or below the first wavelength it returns the first value, at or
    above the last wavelength the last value, and, for an array of at most
    INT_MAX samples (the offset of the search is an [int]), strictly
    between two neighbouring wavelengths the [Lerp] of their two values at
    [t = (l - lambda[i]) / (lambda[i+1] - lambda[i])]; there the DCHECK
    holds, so the value is returned in either build. *)
Theorem PiecewiseLinearSpectrum_eval_spec
  (l values : list Float) (p : PiecewiseLinearSpectrum) :
  l <> [] ->
  PiecewiseLinearSpectrum_new l values = Ret p ->
  let n := List.length l in
  (forall x : Float,
      fle x (nth 0 l nan) = true ->
      PiecewiseLinearSpectrum_eval p x = Ret (nth 0 values nan))
  /\ (forall x : Float,
      fge x (nth (n - 1) l nan) = true ->
      PiecewiseLinearSpectrum_eval p x = Ret (nth (n - 1) values nan))
  /\ (size l <= INT_MAX ->
      forall (x : Float) (i : nat),
      (S i < n)%nat ->
      flt (nth i l nan) x = true -> flt x (nth (S i) l nan) = true ->
      PiecewiseLinearSpectrum_eval p x
      = Ret (Lerp (fdiv (fsub x (nth i l nan))
                        (fsub (nth (S i) l nan) (nth i l nan)))
                  (nth i values nan) (nth (S i) values nan))).
Proof.
  intros Hne Hnew n.
  destruct (PiecewiseLinearSpectrum_new_Ret l values p Hne Hnew)
    as (-> & Hsz & Hinc & _).
  assert (Hn : (1 <= n)%nat).
  { subst n. destruct l; [congruence | simpl; lia]. }
  pose proof (PiecewiseLinearSpectrum_eval_branches l values) as Hunfold.
  cbv zeta in Hunfold. fold n in Hunfold.
  split; [|split].
  - intros x Hx. now rewrite Hunfold, Hx by assumption.
  - intros x Hx. rewrite Hunfold, Hx by assumption.
    destruct (fle x (nth 0 l nan)) eqn:Hx0; [|reflexivity].
    destruct (increasing_le l nan Hinc 0 (n - 1)) as [H0|Hlt]; [lia|lia| |].
    + now rewrite <- H0.
    + unfold fge in Hx. pose proof (fle_trans _ _ _ Hx Hx0) as Hle.
      rewrite (flt_not_fle _ _ Hlt) in Hle. discriminate.
  - intros Hmax x i Hi Hlo Hhi. rewrite Hunfold by assumption.
    assert (H1 : fle x (nth 0 l nan) = false).
    { destruct (increasing_le l nan Hinc 0 i) as [H0|Hlt]; [lia|lia| |].
      - rewrite H0. now apply flt_not_fle.
      - apply flt_not_fle. now apply flt_trans with (nth i l nan). }
    assert (H2 : fge x (nth (n - 1) l nan) = false).
    { unfold fge. destruct (increasing_le l nan Hinc (S i) (n - 1)) as [H0|Hlt]; [lia|lia| |].
      - rewrite <- H0. now apply flt_not_fle.
      - apply flt_not_fle. now apply flt_trans with (nth (S i) l nan). }
    rewrite H1, H2.
    rewrite (PiecewiseLinearSpectrum_interpolate_boundary l values x (Z.of_nat (S i)));
      [| assumption | unfold size; lia | assumption | unfold size; lia | | ].
    + cbv zeta. unfold Clamp.
      rewrite (proj2 (Z.ltb_ge _ _)) by lia.
      rewrite (proj2 (Z.ltb_ge _ _)) by (unfold size; lia).
      replace (Z.to_nat (Z.of_nat (S i) - 1)) with i by lia.
      change (fge x (nth i l nan)) with (fle (nth i l nan) x).
      rewrite (flt_fle _ _ Hlo), (flt_fle _ _ Hhi).
      now rewrite andb_false_r.
    + intros j Hj. apply flt_fle.
      destruct (increasing_le l nan Hinc (Z.to_nat j) i) as [H0|Hlt]; [lia|lia| |].
      * now rewrite H0.
      * now apply flt_trans with (nth i l nan).
    + intros j Hj. apply flt_not_fle. unfold size in Hj.
      destruct (increasing_le l nan Hinc (S i) (Z.to_nat j)) as [H0|Hlt]; [lia|lia| |].
      * now rewrite <- H0.
      * now apply flt_trans with (nth (S i) l nan).
Qed.

(** ** SpectrumToY, SpectrumToXYZ *)

Lemma same_float_eq (a b : Float) : same_float a b = true -> a = b.
Proof.
  destruct a, b; simpl; try discriminate; intros H.
  - now apply eqb_prop in H as ->.
  - now apply eqb_prop in H as ->.
  - reflexivity.
  - apply andb_true_iff in H as [H He]. apply andb_true_iff in H as [Hs Hm].
    apply eqb_prop in Hs as ->. apply Pos.eqb_eq in Hm as ->.
    now apply Z.eqb_eq in He as ->.
Qed.

(** On 360..830 the loop test holds and [++lambda] is exact; at 831 the
    test fails. *)
Lemma wavelength_steps :
  forallb (fun k => fle (of_Z k) LambdaMax
                    && same_float (fadd (of_Z k) one) (of_Z (k + 1)))
          integer_wavelengths = true
  /\ fle (of_Z 831) LambdaMax = false.
Proof. split; vm_compute; reflexivity. Qed.

Lemma wavelength_step (k : nat) :
  (360 <= k <= 830)%nat ->
  fle (of_Z (Z.of_nat k)) LambdaMax = true
  /\ fadd (of_Z (Z.of_nat k)) one = of_Z (Z.of_nat (S k)).
Proof.
  intros Hk. destruct wavelength_steps as [Hall _].
  rewrite forallb_forall in Hall.
  specialize (Hall (Z.of_nat k)).
  assert (Hin : In (Z.of_nat k) integer_wavelengths).
  { unfold integer_wavelengths. apply in_map, in_seq. lia. }
  apply Hall in Hin. apply andb_true_iff in Hin as [H1 H2].
  split; [exact H1|]. apply same_float_eq in H2. rewrite H2. f_equal. lia.
Qed.

Lemma for_lambda_range {A : Type} (body : Float -> A -> A) :
  forall (n start fuel : nat) (acc : A),
    (360 <= start)%nat -> (start + n = 831)%nat -> (n < fuel)%nat ->
    for_lambda fuel body (of_Z (Z.of_nat start)) acc
    = Ret (fold_left (fun a k => body (of_Z k) a) (map Z.of_nat (seq start n)) acc).
Proof.
  induction n as [|n IH]; intros start fuel acc Hlo Hhi Hfuel;
    (destruct fuel as [|fuel]; [lia|]); cbn [for_lambda].
  - replace start with 831%nat by lia.
    change (Z.of_nat 831) with 831.
    now rewrite (proj2 wavelength_steps).
  - destruct (wavelength_step start) as [Hle Hnext]; [lia|].
    rewrite Hle, Hnext. cbn [seq map fold_left]. apply IH; lia.
Qed.

(** C3: SpectrumToY is the unit-step sum of Y(lambda) * s(lambda) over the
    integer wavelengths LambdaMin..LambdaMax divided by CIE_Y_integral, and
    SpectrumToXYZ the three such sums against X, Y and Z, each divided by
    the same constant. The loops take 471 iterations and one more test. *)
Theorem SpectrumToY_SpectrumToXYZ_spec (fuel : nat) (s : SpectrumHandle) :
  (472 <= fuel)%nat ->
  SpectrumToY fuel s
  = Ret (fdiv (Riemann_sum (spectrum_eval SPDs_Y) (spectrum_eval s)) CIE_Y_integral)
  /\ SpectrumToXYZ fuel s
     = Ret {| xyz_X := fdiv (Riemann_sum (spectrum_eval SPDs_X) (spectrum_eval s))
                            CIE_Y_integral;
              xyz_Y := fdiv (Riemann_sum (spectrum_eval SPDs_Y) (spectrum_eval s))
                            CIE_Y_integral;
              xyz_Z := fdiv (Riemann_sum (spectrum_eval SPDs_Z) (spectrum_eval s))
                            CIE_Y_integral |}.
Proof.
  intros Hfuel. unfold SpectrumToY, SpectrumToXYZ.
  change LambdaMin with (of_Z (Z.of_nat 360)).
  rewrite !(for_lambda_range _ 471 360) by lia. cbn [bind].
  fold integer_wavelengths. unfold XYZ_div, Riemann_sum.
  generalize integer_wavelengths as ks. intros ks.
  split; [reflexivity|]. f_equal. revert ks.
  enough (H : forall ks x y z,
    fold_left (fun a k =>
      {| xyz_X := fadd (xyz_X a) (fmul (spectrum_eval SPDs_X (of_Z k)) (spectrum_eval s (of_Z k)));
         xyz_Y := fadd (xyz_Y a) (fmul (spectrum_eval SPDs_Y (of_Z k)) (spectrum_eval s (of_Z k)));
         xyz_Z := fadd (xyz_Z a) (fmul (spectrum_eval SPDs_Z (of_Z k)) (spectrum_eval s (of_Z k))) |})
      ks {| xyz_X := x; xyz_Y := y; xyz_Z := z |}
    = {| xyz_X := fold_left (fun acc k => fadd acc (fmul (spectrum_eval SPDs_X (of_Z k)) (spectrum_eval s (of_Z k)))) ks x;
         xyz_Y := fold_left (fun acc k => fadd acc (fmul (spectrum_eval SPDs_Y (of_Z k)) (spectrum_eval s (of_Z k)))) ks y;
         xyz_Z := fold_left (fun acc k => fadd acc (fmul (spectrum_eval SPDs_Z (of_Z k)) (spectrum_eval s (of_Z k)))) ks z |}).
  { intros ks. unfold XYZ_zero. now rewrite H. }
  induction ks as [|k ks IH]; intros x y z; [reflexivity|].
  cbn [fold_left xyz_X xyz_Y xyz_Z]. apply IH.
Qed.

(** ** SampledSpectrum::y, SampledSpectrum::ToXYZ *)

Lemma y_step_fold (Ys v : SampledSpectrum) (lambda : SampledWavelengths) :
  forall (idx : list nat) (acc : Float) (divisors : list Float),
    fold_left (y_step Ys v lambda) idx (acc, divisors)
    = (fold_left
         (fun acc i => fadd acc (fdiv (fmul (at_ Ys i) (at_ v i)) (at_ (swl_pdf lambda) i)))
         (filter (fun i => negb (feq (at_ (swl_pdf lambda) i) zero)) idx) acc,
       divisors
       ++ map (fun i => at_ (swl_pdf lambda) i)
              (filter (fun i => negb (feq (at_ (swl_pdf lambda) i) zero)) idx)).
Proof.
  induction idx as [|i idx IH]; intros acc divisors.
  - simpl. now rewrite app_nil_r.
  - cbn [fold_left filter]. unfold y_step at 2.
    destruct (feq (at_ (swl_pdf lambda) i) zero); cbn [negb].
    + apply IH.
    + rewrite IH. cbn [fold_left map]. now rewrite <- app_assoc.
Qed.

Lemma ToXYZ_step_fold (Xs Ys Zs v : SampledSpectrum) (lambda : SampledWavelengths) :
  forall (idx : list nat) (x y z : Float) (divisors : list Float),
    let term Cs i := fdiv (fmul (at_ Cs i) (at_ v i)) (at_ (swl_pdf lambda) i) in
    let nz := filter (fun i => negb (feq (at_ (swl_pdf lambda) i) zero)) idx in
    fold_left (ToXYZ_step Xs Ys Zs v lambda) idx
      ({| xyz_X := x; xyz_Y := y; xyz_Z := z |}, divisors)
    = ({| xyz_X := fold_left (fun acc i => fadd acc (term Xs i)) nz x;
          xyz_Y := fold_left (fun acc i => fadd acc (term Ys i)) nz y;
          xyz_Z := fold_left (fun acc i => fadd acc (term Zs i)) nz z |},
       divisors
       ++ flat_map (fun i => let pdf := at_ (swl_pdf lambda) i in [pdf; pdf; pdf]) nz).
Proof.
  induction idx as [|i idx IH]; intros x y z divisors; cbv zeta in *.
  - simpl. now rewrite app_nil_r.
  - cbn [fold_left filter]. unfold ToXYZ_step at 2.
    destruct (feq (at_ (swl_pdf lambda) i) zero); cbn [negb].
    + apply IH.
    + cbn [xyz_X xyz_Y xyz_Z]. rewrite IH. cbn [fold_left flat_map].
      now rewrite <- app_assoc.
Qed.

Lemma contributing_nonzero (lambda : SampledWavelengths) (idx : list nat) :
  Forall (fun d => feq d zero = false)
    (map (fun i => at_ (swl_pdf lambda) i)
         (filter (fun i => negb (feq (at_ (swl_pdf lambda) i) zero)) idx)).
Proof.
  apply Forall_forall. intros d Hd. apply in_map_iff in Hd as (i & <- & Hi).
  apply filter_In in Hi as [_ Hi]. now apply negb_true_iff in Hi.
Qed.

(** C4: [y] and [ToXYZ] add, for each sample whose PDF is not 0, the
    matching-curve sample times the value divided by that sample's PDF;
    a sample whose PDF is 0 leaves the accumulator as it was; every divisor
    the loops use is non-zero; and the sum is divided by
    [CIE_Y_integral * NSpectrumSamples]. *)
Theorem SampledSpectrum_y_ToXYZ_spec (v : SampledSpectrum) (lambda : SampledWavelengths) :
  let norm := fmul CIE_Y_integral (of_Z (Z.of_nat NSpectrumSamples)) in
  let Xs := spectrum_Sample SPDs_X lambda in
  let Ys := spectrum_Sample SPDs_Y lambda in
  let Zs := spectrum_Sample SPDs_Z lambda in
  SampledSpectrum_y v lambda = fdiv (pdf_weighted_sum Ys v lambda) norm
  /\ SampledSpectrum_ToXYZ v lambda
     = {| xyz_X := fdiv (pdf_weighted_sum Xs v lambda) norm;
          xyz_Y := fdiv (pdf_weighted_sum Ys v lambda) norm;
          xyz_Z := fdiv (pdf_weighted_sum Zs v lambda) norm |}
  /\ Forall (fun d => feq d zero = false) (snd (SampledSpectrum_y_run v lambda))
  /\ Forall (fun d => feq d zero = false) (snd (SampledSpectrum_ToXYZ_run v lambda)).
Proof.
  cbv zeta.
  unfold SampledSpectrum_y, SampledSpectrum_ToXYZ, SampledSpectrum_y_run,
    SampledSpectrum_ToXYZ_run, XYZ_zero, XYZ_div, pdf_weighted_sum, contributing.
  rewrite y_step_fold, ToXYZ_step_fold. cbn [fst snd app xyz_X xyz_Y xyz_Z].
  repeat split.
  - apply contributing_nonzero.
  - apply Forall_forall. intros d Hd. apply in_flat_map in Hd as (i & Hi & Hd).
    apply filter_In in Hi as [_ Hi]. apply negb_true_iff in Hi.
    cbv zeta in Hd. simpl in Hd. destruct Hd as [<-|[<-|[<-|[]]]]; exact Hi.
Qed.

(** ** Sample of the scaled and product spectra *)

Lemma at_map_seq (f : nat -> Float) (n i : nat) :
  (i < n)%nat -> at_ (map f (seq 0 n)) i = f i.
Proof.
  intros Hi. unfold at_.
  rewrite (nth_indep _ zero (f 0%nat)) by (rewrite length_map, length_seq; exact Hi).
  rewrite map_nth. now rewrite seq_nth.
Qed.

(** C7: at every sample index, [ProductSpectrum::Sample] is the product of
    the two operands' samples and [ScaledSpectrum::Sample] is the scale
    times the operand's sample; both results have [NSpectrumSamples]
    components. *)
Theorem Product_Scaled_Sample_spec
  (s1 s2 : SpectrumHandle) (scale : Float) (lambda : SampledWavelengths) :
  List.length (ProductSpectrum_Sample s1 s2 lambda) = NSpectrumSamples
  /\ List.length (ScaledSpectrum_Sample scale s1 lambda) = NSpectrumSamples
  /\ forall i : nat, (i < NSpectrumSamples)%nat ->
       at_ (ProductSpectrum_Sample s1 s2 lambda) i
       = fmul (at_ (spectrum_Sample s1 lambda) i) (at_ (spectrum_Sample s2 lambda) i)
       /\ at_ (ScaledSpectrum_Sample scale s1 lambda) i
          = fmul scale (at_ (spectrum_Sample s1 lambda) i).
Proof.
  unfold ProductSpectrum_Sample, ScaledSpectrum_Sample, SampledSpectrum_mul,
    SampledSpectrum_scale.
  rewrite !length_map, !length_seq. repeat split.
  - now rewrite at_map_seq.
  - now rewrite at_map_seq.
Qed.

(** ** Rounding never produces NaN *)

Section RoundingNotNaN.

Variables prec emax : Z.

Lemma shr_1_nonneg (mrs : shr_record) : 0 <= shr_m mrs -> 0 <= shr_m (shr_1 mrs).
Proof.
  destruct mrs as [m r s]. cbn [shr_m]. intros Hm.
  destruct m as [|[p|p|]|p]; cbn [shr_1 shr_m]; lia.
Qed.

Lemma iter_pos_shr_1_nonneg (p : positive) :
  forall mrs : shr_record, 0 <= shr_m mrs -> 0 <= shr_m (iter_pos shr_1 p mrs).
Proof.
  induction p as [p IH|p IH|]; intros mrs Hm; cbn [iter_pos].
  - apply IH, IH. now apply shr_1_nonneg.
  - now apply IH, IH.
  - now apply shr_1_nonneg.
Qed.









End RoundingNotNaN.

(** ** Rounding to 24 digits: the product of a value and 0.5 over it *)

Lemma digits2_pos_bounds (p : positive) :
  2 ^ (Z.pos (digits2_pos p) - 1) <= Z.pos p < 2 ^ Z.pos (digits2_pos p).
Proof.
  induction p as [p IH|p IH|]; cbn [digits2_pos].
  - rewrite Pos2Z.inj_succ, (Pos2Z.inj_xI p).
    replace (Z.succ (Z.pos (digits2_pos p)) - 1) with (Z.succ (Z.pos (digits2_pos p) - 1)) by lia.
    rewrite !Z.pow_succ_r by lia. lia.
  - rewrite Pos2Z.inj_succ, (Pos2Z.inj_xO p).
    replace (Z.succ (Z.pos (digits2_pos p)) - 1) with (Z.succ (Z.pos (digits2_pos p) - 1)) by lia.
    rewrite !Z.pow_succ_r by lia. lia.
  - simpl. lia.
Qed.

Lemma digits2_pos_unique (p : positive) (k : Z) :
  2 ^ (k - 1) <= Z.pos p < 2 ^ k -> Z.pos (digits2_pos p) = k.
Proof.
  intros Hk. pose proof (digits2_pos_bounds p) as Hd.
  set (d := Z.pos (digits2_pos p)) in *.
  assert (Hd1 : 1 <= d) by (subst d; lia).
  assert (Hk0 : 0 <= k).
  { destruct (Z_lt_le_dec k 0) as [H|H]; [|exact H].
    rewrite (Z.pow_neg_r 2 k H) in Hk. lia. }
  destruct (Z_lt_le_dec d k) as [Hlt|Hge].
  - assert (2 ^ d <= 2 ^ (k - 1)) by (apply Z.pow_le_mono_r; lia). lia.
  - destruct (Z.eq_dec d k) as [->|Hne]; [reflexivity|].
    assert (2 ^ k <= 2 ^ (d - 1)) by (apply Z.pow_le_mono_r; lia). lia.
Qed.

Lemma shr_1_m (mrs : shr_record) :
  0 <= shr_m mrs -> shr_m (shr_1 mrs) = shr_m mrs / 2.
Proof.
  destruct mrs as [m r s]. cbn [shr_m]. intros Hm.
  destruct m as [|[q|q|]|q]; cbn [shr_1 shr_m]; try lia; try reflexivity.
  - rewrite (Pos2Z.inj_xI q). apply Z.div_unique with 1; lia.
  - rewrite (Pos2Z.inj_xO q). apply Z.div_unique with 0; lia.
Qed.

Lemma shr_1_r (mrs : shr_record) :
  0 <= shr_m mrs -> shr_r (shr_1 mrs) = Z.odd (shr_m mrs).
Proof.
  destruct mrs as [m r s]. cbn [shr_m]. intros Hm.
  destruct m as [|[p|p|]|p]; cbn [shr_1 shr_r]; try reflexivity; lia.
Qed.

Lemma iter_pos_shr_1_m (p : positive) :
  forall mrs : shr_record,
    0 <= shr_m mrs -> shr_m (iter_pos shr_1 p mrs) = shr_m mrs / 2 ^ Z.pos p.
Proof.
  induction p as [p IH|p IH|]; intros mrs Hm; cbn [iter_pos].
  - rewrite IH by (apply iter_pos_shr_1_nonneg; now apply shr_1_nonneg).
    rewrite IH by now apply shr_1_nonneg.
    rewrite shr_1_m by exact Hm.
    rewrite !Z.div_div by lia.
    rewrite (Pos2Z.inj_xI p). f_equal.
    rewrite <- Z.pow_add_r by lia.
    replace (2 * Z.pos p + 1) with (Z.succ (Z.pos p + Z.pos p)) by lia.
    rewrite Z.pow_succ_r by lia. reflexivity.
  - rewrite IH by now apply iter_pos_shr_1_nonneg.
    rewrite IH by exact Hm.
    rewrite Z.div_div by lia.
    rewrite (Pos2Z.inj_xO p). f_equal.
    rewrite <- Z.pow_add_r by lia. f_equal. lia.
  - rewrite shr_1_m by exact Hm. reflexivity.
Qed.

Lemma iter_pos_shr_1_r (p : positive) :
  forall mrs : shr_record,
    0 <= shr_m mrs ->
    shr_r (iter_pos shr_1 p mrs) = Z.odd (shr_m mrs / 2 ^ (Z.pos p - 1)).
Proof.
  induction p as [p IH|p IH|]; intros mrs Hm; cbn [iter_pos].
  - rewrite IH by (apply iter_pos_shr_1_nonneg; now apply shr_1_nonneg).
    rewrite iter_pos_shr_1_m by now apply shr_1_nonneg.
    rewrite shr_1_m by exact Hm.
    rewrite !Z.div_div by lia. f_equal. f_equal.
    rewrite (Pos2Z.inj_xI p).
    rewrite <- Z.pow_add_r by lia.
    replace (2 * Z.pos p + 1 - 1) with (Z.succ (Z.pos p + (Z.pos p - 1))) by lia.
    rewrite Z.pow_succ_r by lia. reflexivity.
  - rewrite IH by now apply iter_pos_shr_1_nonneg.
    rewrite iter_pos_shr_1_m by exact Hm.
    rewrite Z.div_div by lia. f_equal. f_equal.
    rewrite (Pos2Z.inj_xO p).
    rewrite <- Z.pow_add_r by lia. f_equal. lia.
  - rewrite shr_1_r by exact Hm. now rewrite Z.div_1_r.
Qed.

Lemma fexp_eq (x : Z) : fexp prec emax x = Z.max (x - 24) (-149).
Proof. reflexivity. Qed.

Lemma loc_of_shr_record_of_loc (m : Z) (l : location) :
  loc_of_shr_record (shr_record_of_loc m l) = l.
Proof. now destruct l as [|[]]. Qed.

Lemma shr_m_of_loc (m : Z) (l : location) : shr_m (shr_record_of_loc m l) = m.
Proof. now destruct l as [|[]]. Qed.

Lemma round_nearest_even_cases (m : Z) (l : location) :
  round_nearest_even m l = m \/ round_nearest_even m l = m + 1.
Proof.
  destruct l as [|[]]; cbn [round_nearest_even]; auto.
  destruct (Z.even m); auto.
Qed.

(** Rounding an integer of 24 binary digits at an exponent in range keeps
    the integer rounded by its location, as long as that has 24 digits. *)
Lemma binary_round_aux_24 (s : bool) (q ex : Z) (l : location) :
  2 ^ 23 <= q -> round_nearest_even q l < 2 ^ 24 -> -149 <= ex <= 104 ->
  binary_round_aux prec emax s q ex l
  = S754_finite s (Z.to_pos (round_nearest_even q l)) ex.
Proof.
  intros Hq HQ Hex.
  assert (HqQ : q <= round_nearest_even q l)
    by (destruct (round_nearest_even_cases q l) as [->| ->]; lia).
  assert (Hdig : forall z, 2 ^ 23 <= z < 2 ^ 24 -> Zdigits2 z = 24).
  { intros z Hz. destruct z as [|p|p]; try lia.
    cbn [Zdigits2]. apply digits2_pos_unique. exact Hz. }
  unfold binary_round_aux, shr_fexp.
  rewrite (Hdig q) by lia. rewrite fexp_eq.
  replace (Z.max (24 + ex - 24) (-149) - ex) with 0 by lia.
  cbn [shr]. rewrite loc_of_shr_record_of_loc, shr_m_of_loc.
  set (Q := round_nearest_even q l) in *.
  rewrite (Hdig Q) by lia. rewrite fexp_eq.
  replace (Z.max (24 + ex - 24) (-149) - ex) with 0 by lia.
  cbn [shr shr_record_of_loc shr_m].
  destruct Q as [|p|p]; try lia.
  unfold emax, prec. rewrite (proj2 (Z.leb_le ex (128 - 24))) by lia.
  reflexivity.
Qed.

Lemma round_new_location (M q r : Z) :
  0 < M -> 0 <= r < M ->
  (round_nearest_even q (new_location M r) = q /\ 2 * r <= M)
  \/ (round_nearest_even q (new_location M r) = q + 1 /\ M <= 2 * r).
Proof.
  intros HM Hr. unfold new_location, new_location_even, new_location_odd.
  destruct (Z.even M) eqn:Ev.
  - destruct (r =? 0) eqn:E0;
      [apply Z.eqb_eq in E0; left; split; [reflexivity | lia]|].
    destruct (Z.compare_spec (2 * r) M); cbn [round_nearest_even].
    + destruct (Z.even q); [left | right]; (split; [reflexivity | lia]).
    + left. split; [reflexivity | lia].
    + right. split; [reflexivity | lia].
  - destruct (r =? 0) eqn:E0;
      [apply Z.eqb_eq in E0; left; split; [reflexivity | lia]|].
    destruct (Z.compare_spec (2 * r + 1) M); cbn [round_nearest_even].
    + left. split; [reflexivity | lia].
    + left. split; [reflexivity | lia].
    + right. split; [reflexivity | lia].
Qed.

(** The quotient 0.5 / m for a normal m below 2^125, m not a power of 2. *)
Lemma div_half (M : positive) (e : Z) :
  2 ^ 23 < Z.pos M < 2 ^ 24 -> -149 <= e <= 101 ->
  exists Q : positive,
    SFdiv prec emax half (S754_finite false M e) = S754_finite false Q (- 48 - e)
    /\ 2 ^ 23 <= Z.pos Q < 2 ^ 24
    /\ - 2 ^ 23 < Z.pos M * Z.pos Q - 2 ^ 47 < 2 ^ 23.
Proof.
  intros HM He. change half with (S754_finite false 8388608 (-24)). cbn [SFdiv xorb].
  unfold SFdiv_core_binary.
  change (Zdigits2 8388608) with 24.
  assert (HdM : Zdigits2 (Z.pos M) = 24)
    by (cbn [Zdigits2]; apply digits2_pos_unique; lia).
  rewrite HdM. cbv zeta. rewrite fexp_eq.
  replace (Z.min (Z.max (24 + -24 - (24 + e) - 24) (-149)) (-24 - e)) with (- 48 - e) by lia.
  replace (-24 - e - (- 48 - e)) with 24 by lia.
  cbv iota. change (Z.shiftl 8388608 24) with (2 ^ 47).
  pose proof (Z_div_mod (2 ^ 47) (Z.pos M) ltac:(lia)) as Hdiv.
  destruct (Z.div_eucl (2 ^ 47) (Z.pos M)) as [q r].
  destruct Hdiv as [Hqr Hr].
  assert (Hp : 2 ^ 47 = 2 ^ 23 * 2 ^ 24) by reflexivity.
  assert (Hq : 2 ^ 23 <= q <= 2 ^ 24 - 2) by nia.
  destruct (round_new_location (Z.pos M) q r ltac:(lia) Hr) as [[HQ Hle]|[HQ Hle]].
  - rewrite binary_round_aux_24 by lia. rewrite HQ.
    exists (Z.to_pos q). split; [reflexivity|].
    rewrite Z2Pos.id by lia. split; [lia|]. nia.
  - rewrite binary_round_aux_24 by lia. rewrite HQ.
    exists (Z.to_pos (q + 1)). split; [reflexivity|].
    rewrite Z2Pos.id by lia. split; [lia|]. nia.
Qed.

(** Rounding a product within 2^23 of 2^47 at exponent -48: 0.5 or the
    value just below it. *)
Lemma round_near_half (P : positive) :
  - 2 ^ 23 < Z.pos P - 2 ^ 47 < 2 ^ 23 ->
  binary_round_aux prec emax false (Z.pos P) (-48) loc_Exact = half
  \/ binary_round_aux prec emax false (Z.pos P) (-48) loc_Exact = below_half.
Proof.
  intros HP. change half with (S754_finite false 8388608 (-24)).
  change below_half with (S754_finite false 16777215 (-25)).
  assert (Hp47 : 2 ^ 47 = 2 ^ 23 * 2 ^ 24) by reflexivity.
  unfold binary_round_aux at 1 2, shr_fexp at 1 3.
  destruct (Z_lt_le_dec (Z.pos P) (2 ^ 47)) as [Hlt|Hge].
  - (* 47 digits: shift by 23 *)
    assert (Hd : Zdigits2 (Z.pos P) = 47)
      by (cbn [Zdigits2]; apply digits2_pos_unique; change (2 ^ (47 - 1)) with (2 ^ 46); lia).
    rewrite Hd, fexp_eq. change (Z.max (47 + -48 - 24) (-149) - -48) with 23.
    cbn [shr shr_record_of_loc].
    pose proof (iter_pos_shr_1_m 23 {| shr_m := Z.pos P; shr_r := false; shr_s := false |}
                  ltac:(cbn; lia)) as Hm.
    cbn [shr_m] in Hm.
    assert (Hq : Z.pos P / 2 ^ 23 = 2 ^ 24 - 1).
    { symmetry. apply Z.div_unique with (Z.pos P - (2 ^ 24 - 1) * 2 ^ 23); lia. }
    rewrite Hq in Hm.
    destruct (iter_pos shr_1 23 {| shr_m := Z.pos P; shr_r := false; shr_s := false |})
      as [m r s]. cbn [shr_m] in Hm. subst m.
    change (-48 + 23) with (-25).
    destruct (round_nearest_even_cases (2 ^ 24 - 1) (loc_of_shr_record
               {| shr_m := 2 ^ 24 - 1; shr_r := r; shr_s := s |})) as [HR|HR];
      cbn [shr_m]; rewrite HR.
    + right. reflexivity.
    + left. reflexivity.
  - (* 48 digits: shift by 24 *)
    assert (Hd : Zdigits2 (Z.pos P) = 48)
      by (cbn [Zdigits2]; apply digits2_pos_unique; change (2 ^ (48 - 1)) with (2 ^ 47);
          change (2 ^ 48) with (2 * 2 ^ 47); lia).
    rewrite Hd, fexp_eq. change (Z.max (48 + -48 - 24) (-149) - -48) with 24.
    cbn [shr shr_record_of_loc].
    pose proof (iter_pos_shr_1_m 24 {| shr_m := Z.pos P; shr_r := false; shr_s := false |}
                  ltac:(cbn; lia)) as Hm.
    pose proof (iter_pos_shr_1_r 24 {| shr_m := Z.pos P; shr_r := false; shr_s := false |}
                  ltac:(cbn; lia)) as Hr.
    cbn [shr_m] in Hm, Hr. change (24 - 1) with 23 in Hr.
    assert (Hq : Z.pos P / 2 ^ 24 = 2 ^ 23).
    { symmetry. apply Z.div_unique with (Z.pos P - 2 ^ 23 * 2 ^ 24); lia. }
    assert (Hq' : Z.pos P / 2 ^ 23 = 2 ^ 24).
    { symmetry. apply Z.div_unique with (Z.pos P - 2 ^ 24 * 2 ^ 23); lia. }
    rewrite Hq in Hm. rewrite Hq' in Hr. change (Z.odd (2 ^ 24)) with false in Hr.
    destruct (iter_pos shr_1 24 {| shr_m := Z.pos P; shr_r := false; shr_s := false |})
      as [m r s]. cbn [shr_m shr_r] in Hm, Hr. subst m r.
    left. destruct s; reflexivity.
Qed.

Lemma product_near_half (M : positive) (e : Z) :
  2 ^ 23 < Z.pos M < 2 ^ 24 -> -149 <= e <= 101 ->
  let m := S754_finite false M e in
  fmul m (fdiv half m) = half
  \/ fmul m (fdiv half m) = below_half.
Proof.
  intros HM He. cbv zeta.
  unfold fmul, fdiv.
  destruct (div_half M e HM He) as (Q & -> & HQ & HMQ).
  cbn [SFmul xorb]. replace (e + (- 48 - e)) with (-48) by lia.
  apply round_near_half. rewrite Pos2Z.inj_mul. exact HMQ.
Qed.

(** The same for the powers of 2: the quotient and the product are exact. *)
Lemma product_half_pow2 :
  forallb (fun e => same_float (fmul (S754_finite false 8388608 e)
                                     (fdiv half (S754_finite false 8388608 e)))
                               half)
          (map (fun k => Z.of_nat k - 149) (seq 0 251)) = true.
Proof. vm_compute. reflexivity. Qed.

Lemma normal_product_near_half (m : Float) :
  normal_below_2_125 m = true ->
  fgt m zero = true
  /\ (fmul m (fdiv half m) = half \/ fmul m (fdiv half m) = below_half).
Proof.
  destruct m as [s|s| |s M e]; try discriminate. destruct s; [discriminate|].
  cbn [normal_below_2_125]. intros H.
  apply andb_true_iff in H as [H He2]. apply andb_true_iff in H as [H He1].
  apply andb_true_iff in H as [HM1 HM2].
  apply Z.leb_le in HM1, He1, He2. apply Z.ltb_lt in HM2.
  split; [reflexivity|].
  destruct (Z.eq_dec (Z.pos M) (2 ^ 23)) as [Heq|Hne].
  - left. assert (HM : M = 8388608%positive) by (apply Pos2Z.inj; exact Heq). subst M.
    pose proof product_half_pow2 as Hall. rewrite forallb_forall in Hall.
    apply same_float_eq, Hall.
    replace e with (Z.of_nat (Z.to_nat (e + 149)) - 149) by lia.
    apply (in_map (fun k => Z.of_nat k - 149)), in_seq. lia.
  - apply product_near_half; lia.
Qed.

(** ** RGBSpectrum *)

Lemma flt_asym (a b : Float) : flt a b = true -> flt b a = false.
Proof.
  intros H. destruct (flt b a) eqn:E; [|reflexivity].
  pose proof (flt_trans _ _ _ H E) as Haa. rewrite flt_irrefl in Haa. discriminate.
Qed.

(** [std_max3] returns one of its arguments, and none of them is greater
    ([operator<]) than what it returns. *)
Lemma std_max3_spec (x y z : Float) :
  let m := std_max3 x y z in
  (m = x \/ m = y \/ m = z)
  /\ flt m x = false /\ flt m y = false /\ flt m z = false.
Proof.
  cbv zeta. unfold std_max3.
  destruct (flt x y) eqn:Exy.
  - destruct (flt y z) eqn:Eyz.
    + repeat split; [auto | | | apply flt_irrefl].
      * apply flt_asym. now apply flt_trans with y.
      * now apply flt_asym.
    + repeat split; [auto | | apply flt_irrefl | exact Eyz].
      now apply flt_asym.
  - destruct (flt x z) eqn:Exz.
    + repeat split; [auto | | | apply flt_irrefl].
      * now apply flt_asym.
      * destruct (flt z y) eqn:Ezy; [|reflexivity].
        pose proof (flt_trans _ _ _ Exz Ezy). congruence.
    + repeat split; [auto | apply flt_irrefl | exact Exy | exact Exz].
Qed.

(** C6 (amended): the constructor keeps the RGB triple, refers to the
    colour space's illuminant and, with [m] the largest component (one of
    the three, none of them greater), stores the scale [0.5f / m] when
    [m > 0] and the scale 0 otherwise (a black, negative or NaN triple);
    the coefficients are those of [rgb * scale]. When [m > 0] fails,
    [m * scale] is not 0.5. When [m] is a normal value with
    2^-126 <= m < 2^125, [m * scale] is 0.5 or the largest [Float] below
    0.5. *)
Theorem RGBSpectrum_new_spec (cs : RGBColorSpace) (rgb : RGB) :
  let m := std_max3 (rgb_r rgb) (rgb_g rgb) (rgb_b rgb) in
  let sp := RGBSpectrum_new cs rgb in
  rgbs_illuminant sp = cs_illuminant cs
  /\ rgbs_rgb sp = rgb
  /\ (m = rgb_r rgb \/ m = rgb_g rgb \/ m = rgb_b rgb)
  /\ (flt m (rgb_r rgb) = false /\ flt m (rgb_g rgb) = false /\ flt m (rgb_b rgb) = false)
  /\ (fgt m zero = true -> rgbs_scale sp = fdiv half m)
  /\ (fgt m zero = false -> rgbs_scale sp = zero)
  /\ rgbs_rsp sp = cs_ToRGBCoeffs cs (RGB_scale rgb (rgbs_scale sp))
  /\ (fgt m zero = false -> feq (fmul m (rgbs_scale sp)) half = false)
  /\ (normal_below_2_125 m = true ->
      fgt m zero = true
      /\ (fmul m (rgbs_scale sp) = half \/ fmul m (rgbs_scale sp) = below_half)).
Proof.
  cbv zeta.
  destruct (std_max3_spec (rgb_r rgb) (rgb_g rgb) (rgb_b rgb)) as (Hin & Hr & Hg & Hb).
  unfold RGBSpectrum_new. cbn [rgbs_illuminant rgbs_rgb rgbs_scale rgbs_rsp].
  set (m := std_max3 (rgb_r rgb) (rgb_g rgb) (rgb_b rgb)) in *.
  split; [reflexivity|]. split; [reflexivity|]. split; [exact Hin|].
  split; [repeat split; assumption|].
  split; [intros H; now rewrite H|]. split; [intros H; now rewrite H|].
  split; [reflexivity|]. split.
  - intros H. rewrite H. now destruct m.
  - intros Hn. destruct (normal_product_near_half m Hn) as [Hpos Hprod].
    rewrite Hpos. split; [reflexivity | exact Hprod].
Qed.

(** ** Blackbody *)







(** ** SPDs::FindMatchingNamed *)

Lemma lambdas_match_Forall (a b : SpectrumHandle) (ls : list Float) :
  lambdas_match a b ls = true
  <-> Forall (fun lambda => feq (spectrum_eval a lambda) (spectrum_eval b lambda) = true) ls.
Proof.
  induction ls as [|l ls IH]; cbn [lambdas_match].
  - split; [constructor | reflexivity].
  - unfold fne. destruct (feq (spectrum_eval a l) (spectrum_eval b l)) eqn:E;
      cbn [negb]; cbv iota.
    + rewrite IH. split; intros H; [now constructor | now inversion H].
    + split; [discriminate|]. intros H. inversion H. congruence.
Qed.

Lemma sampledLambdasMatch_agree (s h : SpectrumHandle) :
  sampledLambdasMatch s h = true <-> agree_on_probes s h.
Proof. apply lambdas_match_Forall. Qed.

Lemma FindMatchingNamed_in_found (m : list (string * SpectrumHandle))
  (s : SpectrumHandle) :
  FindMatchingNamed_in m s <> EmptyString ->
  exists h, In (FindMatchingNamed_in m s, h) m /\ sampledLambdasMatch s h = true.
Proof.
  induction m as [|[k h] rest IH]; cbn [FindMatchingNamed_in fst snd]; [congruence|].
  destruct (sampledLambdasMatch s h) eqn:E.
  - intros _. exists h. split; [now left | exact E].
  - intros Hne. destruct (IH Hne) as (h' & Hin & Hm). exists h'. split; [now right | exact Hm].
Qed.

Lemma FindMatchingNamed_in_none (m : list (string * SpectrumHandle))
  (s : SpectrumHandle) :
  (forall name h, In (name, h) m -> sampledLambdasMatch s h = false) ->
  FindMatchingNamed_in m s = EmptyString.
Proof.
  induction m as [|[k h] rest IH]; cbn [FindMatchingNamed_in fst snd]; [reflexivity|].
  intros Hall. rewrite (Hall k h) by now left.
  apply IH. intros name h' Hin. apply (Hall name h'). now right.
Qed.

Lemma GetNamed_in_In (m : list (string * SpectrumHandle)) (name : string)
  (h : SpectrumHandle) :
  NoDup (map fst m) -> In (name, h) m -> GetNamed_in m name = Some h.
Proof.
  induction m as [|[k h'] rest IH]; cbn [GetNamed_in map fst]; [contradiction|].
  intros Hnd Hin. inversion Hnd as [|? ? Hnotin Hnd']; subst.
  destruct Hin as [Heq|Hin].
  - inversion Heq; subst. now rewrite String.eqb_refl.
  - destruct (String.eqb k name) eqn:E.
    + apply String.eqb_eq in E. subst k. exfalso. apply Hnotin.
      change name with (fst (name, h)). now apply in_map.
    + now apply IH.
Qed.

Lemma GetNamed_in_Some (m : list (string * SpectrumHandle)) (name : string)
  (h : SpectrumHandle) :
  GetNamed_in m name = Some h -> In (name, h) m.
Proof.
  induction m as [|[k h'] rest IH]; cbn [GetNamed_in]; [discriminate|].
  destruct (String.eqb k name) eqn:E.
  - apply String.eqb_eq in E. intros H. inversion H; subst. now left.
  - intros H. right. now apply IH.
Qed.

(** C9: over a table with one entry per name, a non-empty result of
    [FindMatchingNamed] is the name of a registered spectrum that compares
    equal to [s] at each of the ten probe wavelengths, and the result is
    the empty string when no registered spectrum does. *)
Theorem FindMatchingNamed_spec (s : SpectrumHandle) :
  NoDup (map fst namedSPDs) ->
  wls = [of_Z 380; of_Z 402; of_Z 455; of_Z 503; of_Z 579;
         of_Z 610; of_Z 660; of_Z 692; of_Z 702; fdiv (of_Z 7155) (of_Z 10)]
  /\ (FindMatchingNamed s <> EmptyString ->
      exists h, GetNamed (FindMatchingNamed s) = Some h /\ agree_on_probes s h)
  /\ ((forall name h, GetNamed name = Some h -> ~ agree_on_probes s h) ->
      FindMatchingNamed s = EmptyString).
Proof.
  intros Hnd. split; [vm_compute; reflexivity|]. split.
  - intros Hne. destruct (FindMatchingNamed_in_found namedSPDs s Hne) as (h & Hin & Hm).
    exists h. split; [now apply GetNamed_in_In | now apply sampledLambdasMatch_agree].
  - intros Hall. apply FindMatchingNamed_in_none. intros name h Hin.
    destruct (sampledLambdasMatch s h) eqn:E; [|reflexivity].
    exfalso. apply (Hall name h); [now apply GetNamed_in_In|].
    now apply sampledLambdasMatch_agree.
Qed.

(** ** DenselySampledSpectrum: the constructor *)

Lemma list_set_app {A : Type} (pre rest : list A) (x y : A) :
  list_set (pre ++ x :: rest) (List.length pre) y = pre ++ y :: rest.
Proof. induction pre as [|a pre IH]; simpl; [reflexivity | now rewrite IH]. Qed.

Lemma DenselySampledSpectrum_fill_spec (s : SpectrumHandle) (lambdaMin lambdaMax : Z) :
  INT_MIN <= lambdaMin -> lambdaMax < INT_MAX -> lambdaMax - lambdaMin < INT_MAX ->
  forall (todo fuel : nat) (done : list Float),
    lambdaMin + Z.of_nat (List.length done) + Z.of_nat todo = lambdaMax + 1 ->
    (todo < fuel)%nat ->
    DenselySampledSpectrum_fill fuel s lambdaMin lambdaMax
      (lambdaMin + Z.of_nat (List.length done)) (done ++ repeat zero todo)
    = Ret (done
           ++ map (fun j => spectrum_eval s
                              (fadd (of_Z (lambdaMin + Z.of_nat (List.length done + j))) half))
                  (seq 0 todo)).
Proof.
  intros Hmin Hmax Hrange.
  induction todo as [|todo IH]; intros fuel done Hsum Hfuel;
    (destruct fuel as [|fuel]; [lia|]); cbn [DenselySampledSpectrum_fill].
  - rewrite (proj2 (Z.leb_gt _ _)) by lia. reflexivity.
  - rewrite (proj2 (Z.leb_le _ _)) by lia.
    replace (lambdaMin + Z.of_nat (List.length done) - lambdaMin)
      with (Z.of_nat (List.length done)) by lia.
    assert (Hint : INT_MIN <= 0) by (unfold INT_MIN; lia).
    rewrite int_result_in by lia. cbn [bind].
    assert (Hmod : INT_MAX < size_t_modulus) by reflexivity.
    rewrite size_t_wrap_small by lia.
    unfold vec_set. rewrite size_app. unfold size at 1 2. rewrite repeat_length.
    rewrite (proj2 (Z.leb_le _ _)), (proj2 (Z.ltb_lt _ _)) by lia.
    cbn [andb bind]. rewrite Nat2Z.id. cbn [repeat]. rewrite list_set_app.
    rewrite int_result_in by lia. cbn [bind].
    set (x := spectrum_eval s (fadd (of_Z (lambdaMin + Z.of_nat (List.length done))) half)).
    replace (done ++ x :: repeat zero todo) with ((done ++ [x]) ++ repeat zero todo)
      by (now rewrite <- app_assoc).
    replace (lambdaMin + Z.of_nat (List.length done) + 1)
      with (lambdaMin + Z.of_nat (List.length (done ++ [x])))
      by (rewrite length_app; simpl; lia).
    rewrite IH by (try rewrite length_app; simpl; lia).
    rewrite <- app_assoc. cbn [app seq map]. rewrite Nat.add_0_r. fold x.
    apply f_equal, f_equal, f_equal.
    rewrite <- seq_shift, map_map. apply map_ext. intros j.
    rewrite length_app. cbn [List.length]. do 4 f_equal. lia.
Qed.

Lemma DenselySampledSpectrum_new_ok (s : SpectrumHandle) (lambdaMin lambdaMax : Z) :
  INT_MIN <= lambdaMin -> lambdaMin <= lambdaMax -> lambdaMax < INT_MAX ->
  lambdaMax - lambdaMin < INT_MAX ->
  DenselySampledSpectrum_new s lambdaMin lambdaMax
  = Ret {| dss_lambdaMin := lambdaMin; dss_lambdaMax := lambdaMax;
           dss_v := DenselySampledSpectrum_table s lambdaMin lambdaMax |}
  /\ size (DenselySampledSpectrum_table s lambdaMin lambdaMax) = lambdaMax - lambdaMin + 1
  /\ forall lambda : Z, lambdaMin <= lambda <= lambdaMax ->
       vec_get (DenselySampledSpectrum_table s lambdaMin lambdaMax) (lambda - lambdaMin)
       = Ret (spectrum_eval s (fadd (of_Z lambda) half)).
Proof.
  intros Hmin Hle Hmax Hrange. unfold DenselySampledSpectrum_table.
  assert (Hint : INT_MIN <= 0) by (unfold INT_MIN; lia).
  assert (Hmod : INT_MAX < vector_max_size) by reflexivity.
  pose proof vector_max_size_lt as Hvm.
  split; [|split].
  - unfold DenselySampledSpectrum_new.
    rewrite int_result_in by lia. cbn [bind].
    rewrite int_result_in by lia. cbn [bind].
    rewrite size_t_wrap_small by lia.
    unfold vector_new. rewrite (proj2 (Z.leb_le _ _)) by lia. cbn [bind].
    rewrite (proj2 (Z.leb_le _ _) Hle). cbn [CHECK bind].
    pose proof (DenselySampledSpectrum_fill_spec s lambdaMin lambdaMax Hmin Hmax Hrange
                  (Z.to_nat (lambdaMax - lambdaMin + 1))
                  (S (List.length (repeat zero (Z.to_nat (lambdaMax - lambdaMin + 1)))))
                  []) as H.
    cbn [List.length app] in H. rewrite Z.add_0_r in H.
    rewrite H by (try rewrite repeat_length; lia). reflexivity.
  - unfold size. rewrite length_map, length_seq. lia.
  - intros lambda Hl.
    rewrite (vec_get_nth _ _ zero) by (unfold size; rewrite length_map, length_seq; lia).
    f_equal.
    rewrite (nth_indep _ zero (spectrum_eval s (fadd (of_Z (lambdaMin + Z.of_nat 0)) half)))
      by (rewrite length_map, length_seq; lia).
    rewrite (map_nth (fun j => spectrum_eval s (fadd (of_Z (lambdaMin + Z.of_nat j)) half))).
    rewrite seq_nth by lia. do 3 f_equal. lia.
Qed.

(** An empty range, [lambdaMax = lambdaMin - 1]: the table has no entry
    and CHECK_GE fails. *)
Lemma DenselySampledSpectrum_new_CHECK (s : SpectrumHandle) (lambdaMin : Z) :
  INT_MIN < lambdaMin <= INT_MAX ->
  DenselySampledSpectrum_new s lambdaMin (lambdaMin - 1) = CheckFailed.
Proof.
  intros H. unfold DenselySampledSpectrum_new.
  assert (Hint : INT_MIN <= -1 /\ 0 <= INT_MAX) by (unfold INT_MIN, INT_MAX; lia).
  replace (lambdaMin - 1 - lambdaMin) with (-1) by lia.
  rewrite int_result_in by lia. cbn [bind].
  change (-1 + 1) with 0. rewrite int_result_in by lia. cbn [bind].
  change (vector_new (size_t_wrap 0)) with (Ret (@nil Float)). cbn [bind].
  now rewrite (proj2 (Z.leb_gt _ _)) by lia.
Qed.

(** A reversed range, [lambdaMax < lambdaMin - 1]: the element count is
    negative and converts to a [size_t] above 2^64 - 2^32; the vector
    cannot be created and CHECK_GE is not reached. *)
Lemma DenselySampledSpectrum_new_reversed (s : SpectrumHandle) (lambdaMin lambdaMax : Z) :
  INT_MIN <= lambdaMax -> lambdaMin <= INT_MAX -> lambdaMax < lambdaMin - 1 ->
  INT_MIN <= lambdaMax - lambdaMin ->
  DenselySampledSpectrum_new s lambdaMin lambdaMax = AllocFailed.
Proof.
  intros Hmax Hmin Hlt Hd. unfold DenselySampledSpectrum_new.
  assert (Hint : INT_MIN = - 2 ^ 31 /\ INT_MAX = 2 ^ 31 - 1) by (split; reflexivity).
  rewrite int_result_in by lia. cbn [bind].
  rewrite int_result_in by lia. cbn [bind].
  unfold vector_new, size_t_wrap.
  assert (Hwrap : (lambdaMax - lambdaMin + 1) mod size_t_modulus
                  = lambdaMax - lambdaMin + 1 + size_t_modulus).
  { symmetry. apply Z.mod_unique with (q := -1); unfold size_t_modulus; lia. }
  rewrite Hwrap.
  rewrite (proj2 (Z.leb_gt _ _)); [reflexivity|].
  unfold vector_max_size, size_t_modulus.
  change ((2 ^ 63 - 1) / 4) with 2305843009213693951. lia.
Qed.

(** C10: the constructor with the bounds swapped, (830, 360). The member
    initialiser sizes the table from 360 - 830 + 1 = -469, which converts
    to the [size_t] count 2^64 - 469; the vector cannot be created, and the
    process stops there, before CHECK_GE(lambdaMax, lambdaMin) is reached. *)
Theorem DenselySampledSpectrum_new_swapped (s : SpectrumHandle) :
  size_t_wrap (360 - 830 + 1) = 2 ^ 64 - 469
  /\ DenselySampledSpectrum_new s 830 360 = AllocFailed.
Proof. split; reflexivity. Qed.

(** ** PiecewiseLinearSpectrum::Read *)

Lemma size_flatten_pairs (ps : list (Float * Float)) :
  size (flatten_pairs ps) = 2 * size ps.
Proof.
  induction ps as [|p ps IH]; [reflexivity|].
  unfold flatten_pairs in *. cbn [flat_map app]. rewrite !size_cons, IH. lia.
Qed.

Lemma flatten_pairs_app (ps qs : list (Float * Float)) :
  flatten_pairs (ps ++ qs) = flatten_pairs ps ++ flatten_pairs qs.
Proof. apply flat_map_app. Qed.

Lemma back_snoc {A : Type} (l : list A) (x : A) : back (l ++ [x]) = Ret x.
Proof.
  unfold back. rewrite size_app, size_cons. change (size (@nil A)) with 0.
  replace (size l + (0 + 1) - 1) with (size l + 0) by lia.
  rewrite vec_get_app_r by lia. apply vec_get_0_cons.
Qed.

Lemma Read_loop_spec (fn : string) (rest : list (Float * Float)) :
  forall done : list (Float * Float),
    Read_loop fn (flatten_pairs (done ++ rest)) (List.length rest) (size done)
      (map fst done) (map snd done)
    = match first_bad fn (last_lambda done) (size done) rest with
      | Some w => Ret (inl w)
      | None => Ret (inr (map fst (done ++ rest), map snd (done ++ rest)))
      end.
Proof.
  induction rest as [|p rest IH]; intros done.
  - cbn [Read_loop List.length first_bad]. now rewrite app_nil_r.
  - cbn [Read_loop List.length first_bad].
    rewrite flatten_pairs_app.
    replace (2 * size done) with (size (flatten_pairs done) + 0)
      by (rewrite size_flatten_pairs; lia).
    rewrite vec_get_app_r by lia.
    change (flatten_pairs (p :: rest)) with (fst p :: snd p :: flatten_pairs rest).
    rewrite vec_get_0_cons. cbn [bind].
    replace (size (flatten_pairs done) + 0 + 1) with (size (flatten_pairs done) + 1) by lia.
    assert (Hnext : forall stop : option warning,
      match stop with
      | Some w => Ret (inl w)
      | None =>
          y <- vec_get (flatten_pairs done ++ fst p :: snd p :: flatten_pairs rest)
                 (size (flatten_pairs done) + 1) ;;
          Read_loop fn (flatten_pairs done ++ fst p :: snd p :: flatten_pairs rest)
            (List.length rest) (size done + 1) (map fst done ++ [fst p])
            (map snd done ++ [y])
      end
      = match stop with
        | Some w => Ret (inl w)
        | None =>
            match first_bad fn (Some (fst p)) (size done + 1) rest with
            | Some w => Ret (inl w)
            | None => Ret (inr (map fst (done ++ p :: rest), map snd (done ++ p :: rest)))
            end
        end).
    { intros [w|]; [reflexivity|].
      rewrite vec_get_app_r by lia. rewrite vec_get_1_cons. cbn [bind].
      specialize (IH (done ++ [p])).
      rewrite <- app_assoc in IH. cbn [app] in IH.
      rewrite flatten_pairs_app in IH.
      change (flatten_pairs (p :: rest)) with (fst p :: snd p :: flatten_pairs rest) in IH.
      rewrite size_app, size_cons in IH. change (size (@nil (Float * Float))) with 0 in IH.
      rewrite !map_app in IH. cbn [map] in IH.
      replace (size done + (0 + 1)) with (size done + 1) in IH by lia.
      rewrite IH. unfold last_lambda. rewrite rev_app_distr. cbn [rev app].
      now rewrite !map_app. }
    destruct (0 <? size done) eqn:Hi.
    + destruct (exists_last (l := done)) as (done' & q & ->).
      { intros ->. discriminate. }
      assert (Hback : back (map fst (done' ++ [q])) = Ret (fst q))
        by (rewrite map_app; apply back_snoc).
      rewrite Hback. cbn [bind].
      unfold last_lambda at 1. rewrite rev_app_distr. cbn [rev app].
      destruct (fle (fst p) (fst q)); [reflexivity | exact (Hnext None)].
    + destruct done as [|d done].
      2:{ rewrite size_cons in Hi. pose proof (size_nonneg done).
          apply Z.ltb_ge in Hi. lia. }
      cbn [bind]. unfold last_lambda at 1. cbn [rev]. exact (Hnext None).
Qed.

Lemma first_bad_increasing (fn : string) (ps : list (Float * Float)) :
  forall (q : Float) (i : Z),
    increasing (q :: map fst ps) = true -> first_bad fn (Some q) i ps = None.
Proof.
  induction ps as [|p ps IH]; intros q i Hinc; [reflexivity|].
  cbn [first_bad]. cbn [map increasing] in Hinc.
  apply andb_true_iff in Hinc as [Hlt Hinc].
  rewrite (flt_not_fle _ _ Hlt). now apply IH.
Qed.

(** [Read] on a readable file of whole pairs: the warning of the first
    entry that does not increase and the empty optional, or else whatever
    the constructor does with the two arrays. *)
Lemma Read_pairs (fn : string) (ps : list (Float * Float)) :
  ReadFloatFile fn = Some (flatten_pairs ps) ->
  PiecewiseLinearSpectrum_Read fn
  = match first_bad fn None 0 ps with
    | Some w => ([w], Ret None)
    | None =>
        ([], handle <- PiecewiseLinearSpectrum_new (map fst ps) (map snd ps) ;;
             Ret (Some handle))
    end.
Proof.
  intros Hfile. unfold PiecewiseLinearSpectrum_Read. rewrite Hfile.
  rewrite size_flatten_pairs.
  replace (2 * size ps mod 2) with 0 by (rewrite Z.mul_comm, Z_mod_mult; reflexivity).
  cbn [Z.eqb negb].
  replace (Z.to_nat (2 * size ps / 2)) with (List.length ps)
    by (rewrite Z.mul_comm, Z_div_mult by lia; unfold size; lia).
  pose proof (Read_loop_spec fn ps []) as H. cbn [app map] in H.
  change (size (@nil (Float * Float))) with 0 in H. rewrite H.
  unfold last_lambda. cbn [rev].
  now destruct (first_bad fn None 0 ps).
Qed.

(** A file that cannot be read: a warning and the empty optional. *)
Lemma Read_unreadable (fn : string) :
  ReadFloatFile fn = None ->
  PiecewiseLinearSpectrum_Read fn = ([UnableToRead fn], Ret None).
Proof. intros H. unfold PiecewiseLinearSpectrum_Read. now rewrite H. Qed.

(** An odd number of values: a warning and the empty optional. *)
Lemma Read_odd (fn : string) (vals : list Float) :
  ReadFloatFile fn = Some vals -> size vals mod 2 <> 0 ->
  PiecewiseLinearSpectrum_Read fn = ([ExtraValue fn], Ret None).
Proof.
  intros H Hodd. unfold PiecewiseLinearSpectrum_Read. rewrite H.
  now rewrite (proj2 (Z.eqb_neq _ _) Hodd).
Qed.

(** A wavelength [<=] the one before it: a warning that names the entry,
    and the empty optional. *)
Lemma Read_not_increasing (fn : string) (ps : list (Float * Float)) (w : warning) :
  ReadFloatFile fn = Some (flatten_pairs ps) ->
  first_bad fn None 0 ps = Some w ->
  PiecewiseLinearSpectrum_Read fn = ([w], Ret None).
Proof. intros Hfile Hbad. now rewrite (Read_pairs fn ps Hfile), Hbad. Qed.

(** A well-formed file of at least one pair: no warning, and a spectrum
    holding exactly those pairs. *)
Lemma Read_well_formed (fn : string) (ps : list (Float * Float)) :
  ReadFloatFile fn = Some (flatten_pairs ps) ->
  ps <> [] -> size ps <= vector_max_size ->
  increasing (map fst ps) = true ->
  PiecewiseLinearSpectrum_Read fn
  = ([], Ret (Some {| pls_lambda := map fst ps; pls_v := map snd ps |})).
Proof.
  intros Hfile Hne Hsz Hinc. rewrite (Read_pairs fn ps Hfile).
  destruct ps as [|p ps]; [congruence|].
  cbn [first_bad]. cbn [map] in Hinc.
  rewrite (first_bad_increasing fn ps (fst p) (0 + 1) Hinc).
  change (fst p :: map fst ps) with (map fst (p :: ps)) in *.
  assert (Hl : size (map fst (p :: ps)) = size (p :: ps))
    by (unfold size; now rewrite length_map).
  assert (Hv : size (map snd (p :: ps)) = size (p :: ps))
    by (unfold size; now rewrite length_map).
  cbn [map] in *.
  rewrite PiecewiseLinearSpectrum_new_nonempty by lia.
  cbn [map]. now rewrite (proj2 (Z.eqb_eq _ _) (eq_trans Hl (eq_sym Hv))), Hinc.
Qed.

(** A readable file holding no value at all: it passes the checks of
    [Read], and the constructor is called on two empty arrays. *)
Lemma Read_empty (fn : string) :
  ReadFloatFile fn = Some [] ->
  PiecewiseLinearSpectrum_Read fn = ([], OutOfBounds).
Proof. intros Hfile. now rewrite (Read_pairs fn [] Hfile). Qed.

(** ** PiecewiseLinearSpectrum::MaxValue *)

Lemma max_element_from_dominates (rest : list Float) :
  forall m y : Float, flt m y = false -> flt (max_element_from m rest) y = false.
Proof.
  induction rest as [|x rest IH]; intros m y Hmy; [exact Hmy|].
  cbn [max_element_from]. apply IH.
  destruct (flt m x) eqn:Hmx; [|exact Hmy].
  destruct (flt x y) eqn:Hxy; [|reflexivity].
  pose proof (flt_trans _ _ _ Hmx Hxy). congruence.
Qed.

Lemma max_element_from_In (rest : list Float) :
  forall m : Float, In (max_element_from m rest) (m :: rest).
Proof.
  induction rest as [|x rest IH]; intros m; [now left|].
  cbn [max_element_from].
  destruct (IH (if flt m x then x else m)) as [H|H].
  - rewrite <- H. destruct (flt m x); [right; now left | now left].
  - right. now right.
Qed.

Lemma max_element_from_bound (rest : list Float) :
  forall m x : Float, In x (m :: rest) -> flt (max_element_from m rest) x = false.
Proof.
  induction rest as [|x0 rest IH]; intros m x Hin.
  - destruct Hin as [<-|[]]. apply flt_irrefl.
  - cbn [max_element_from]. destruct Hin as [Hx|[Hx|Hin]].
    + subst x. apply max_element_from_dominates.
      destruct (flt m x0) eqn:E; [now apply flt_asym | apply flt_irrefl].
    + subst x. apply max_element_from_dominates.
      destruct (flt m x0) eqn:E; [apply flt_irrefl | exact E].
    + apply IH. now right.
Qed.

(** [MaxValue] is 0 for an empty value array; otherwise it is one of the
    values, and none of the values is greater ([operator<]) than it. *)
Theorem PiecewiseLinearSpectrum_MaxValue_spec (p : PiecewiseLinearSpectrum) :
  (pls_v p = [] -> PiecewiseLinearSpectrum_MaxValue p = zero)
  /\ (pls_v p <> [] ->
      In (PiecewiseLinearSpectrum_MaxValue p) (pls_v p)
      /\ forall x, In x (pls_v p) -> flt (PiecewiseLinearSpectrum_MaxValue p) x = false).
Proof.
  unfold PiecewiseLinearSpectrum_MaxValue. destruct (pls_v p) as [|x rest].
  - split; [reflexivity | congruence].
  - split; [discriminate|]. intros _. split.
    + apply max_element_from_In.
    + apply max_element_from_bound.
Qed.

(** ** PiecewiseLinearSpectrum::operator(): what it indexes and checks *)

(** A boolean sequence that starts true and never turns true again once
    false is true up to some index and false from there on. *)
Lemma boundary_exists (f : nat -> bool) :
  forall n : nat,
    f 0%nat = true ->
    (forall j, (S j < n)%nat -> f (S j) = true -> f j = true) ->
    (forall j, (j < n)%nat -> f j = true)
    \/ exists k, (1 <= k < n)%nat
                 /\ (forall j, (j < k)%nat -> f j = true)
                 /\ (forall j, (k <= j < n)%nat -> f j = false).
Proof.
  induction n as [|n IH]; intros H0 Hanti.
  - left. intros j Hj. lia.
  - destruct IH as [Hall|(k & Hk & Hlo & Hhi)];
      [exact H0 | intros j Hj; apply Hanti; lia | |].
    + destruct (f n) eqn:En.
      * left. intros j Hj.
        destruct (Nat.eq_dec j n) as [->|Hne]; [exact En | apply Hall; lia].
      * right. exists n. split; [|split].
        -- destruct n; [congruence | lia].
        -- intros j Hj. apply Hall; lia.
        -- intros j Hj. replace j with n by lia. exact En.
    + right. exists k. split; [lia|]. split; [exact Hlo|].
      intros j Hj. destruct (Nat.eq_dec j n) as [->|Hne]; [|apply Hhi; lia].
      destruct (f n) eqn:En; [|reflexivity].
      destruct n as [|n']; [lia|].
      assert (Hp : f n' = true) by (apply Hanti; [lia | exact En]).
      rewrite Hhi in Hp by lia. discriminate.
Qed.

(** Strictly between the first and the last wavelength of a strictly
    increasing array, an argument that is not NaN has a sample at or below
    it that is followed by a sample at or above it. *)
Lemma increasing_bracket (l : list Float) (x : Float) :
  increasing l = true -> (2 <= List.length l)%nat -> isnan x = false ->
  fle x (nth 0 l nan) = false -> fle (nth (List.length l - 1) l nan) x = false ->
  exists k : nat,
    (1 <= k < List.length l)%nat
    /\ (forall j, (j < k)%nat -> fle (nth j l nan) x = true)
    /\ (forall j, (k <= j < List.length l)%nat -> fle (nth j l nan) x = false)
    /\ fle x (nth k l nan) = true.
Proof.
  intros Hinc Hlen Hx H0 Hlast.
  assert (Hnn : forall j, (j < List.length l)%nat -> isnan (nth j l nan) = false).
  { intros j Hj. destruct (Nat.eq_dec (S j) (List.length l)) as [He|Hne].
    - pose proof (increasing_adjacent l nan Hinc (j - 1)) as H.
      replace (S (j - 1)) with j in H by lia.
      exact (proj2 (flt_not_nan _ _ (H Hj))).
    - pose proof (increasing_adjacent l nan Hinc j ltac:(lia)) as H.
      exact (proj1 (flt_not_nan _ _ H)). }
  destruct (boundary_exists (fun j => fle (nth j l nan) x) (List.length l))
    as [Hall|(k & Hk & Hlo & Hhi)].
  - destruct (fle_or_flt x (nth 0 l nan) Hx (Hnn 0%nat ltac:(lia))) as [H|H];
      [congruence | now apply flt_fle].
  - intros j Hj Ht. apply fle_trans with (nth (S j) l nan); [|exact Ht].
    apply flt_fle. now apply increasing_adjacent.
  - rewrite Hall in Hlast by lia. discriminate.
  - exists k. split; [exact Hk|]. split; [exact Hlo|]. split; [exact Hhi|].
    destruct (fle_or_flt (nth k l nan) x (Hnn k ltac:(lia)) Hx) as [H|H].
    + rewrite Hhi in H by lia. discriminate.
    + now apply flt_fle.
Qed.

(** An argument that is not NaN, on increasing arrays of 2 to INT_MAX
    samples: the DCHECK holds and every index is inside the arrays. *)
Lemma PiecewiseLinearSpectrum_eval_total (l values : list Float) (x : Float) :
  size l = size values -> 2 <= size l -> size l <= INT_MAX ->
  increasing l = true -> isnan x = false ->
  exists y,
    PiecewiseLinearSpectrum_eval {| pls_lambda := l; pls_v := values |} x = Ret y.
Proof.
  intros Hsz H2 Hmax Hinc Hx.
  assert (Hne : l <> []) by (intros ->; cbv in H2; now apply H2).
  rewrite PiecewiseLinearSpectrum_eval_branches by assumption. cbv zeta.
  destruct (fle x (nth 0 l nan)) eqn:H0; [eexists; reflexivity|].
  destruct (fge x (nth (List.length l - 1) l nan)) eqn:Hlast; [eexists; reflexivity|].
  change (fge x (nth (List.length l - 1) l nan))
    with (fle (nth (List.length l - 1) l nan) x) in Hlast.
  destruct (increasing_bracket l x Hinc ltac:(unfold size in H2; lia) Hx H0 Hlast)
    as (k & Hk & Hlo & Hhi & Hup).
  rewrite (PiecewiseLinearSpectrum_interpolate_boundary l values x (Z.of_nat k));
    [| assumption | assumption | assumption | unfold size; lia
     | intros j Hj; apply Hlo; lia
     | intros j Hj; apply Hhi; unfold size in Hj; lia].
  cbv zeta. unfold Clamp.
  rewrite (proj2 (Z.ltb_ge _ _)) by lia.
  rewrite (proj2 (Z.ltb_ge _ _)) by (unfold size; lia).
  replace (Z.to_nat (Z.of_nat k - 1)) with (k - 1)%nat by lia.
  replace (S (k - 1)) with k by lia.
  change (fge x (nth (k - 1) l nan)) with (fle (nth (k - 1) l nan) x).
  rewrite Hlo by lia. rewrite Hup. rewrite andb_false_r.
  eexists; reflexivity.
Qed.

Lemma PiecewiseLinearSpectrum_eval_value (l values : list Float) (x : Float) :
  size l = size values -> 2 <= size l -> size l <= INT_MAX ->
  increasing l = true -> isnan x = false ->
  PiecewiseLinearSpectrum_eval {| pls_lambda := l; pls_v := values |} x
  = Ret (PiecewiseLinearSpectrum_value {| pls_lambda := l; pls_v := values |} x).
Proof.
  intros Hsz H2 Hmax Hinc Hx. unfold PiecewiseLinearSpectrum_value.
  destruct (PiecewiseLinearSpectrum_eval_total l values x Hsz H2 Hmax Hinc Hx) as [y ->].
  reflexivity.
Qed.

Lemma Lerp_nan (x a d v0 v1 : Float) :
  isnan x = true -> Lerp (fdiv (fsub x a) d) v0 v1 = nan.
Proof. destruct x; try discriminate. intros _. reflexivity. Qed.

(** A constructed spectrum of 2 to INT_MAX samples. At an argument that is
    not NaN [operator()] returns a value in either build: the DCHECK holds
    and no index leaves the arrays. At a NaN argument the search ends at
    offset 0 and [l >= lambda[0]] is false: a build that keeps the DCHECK
    stops there, a build that drops it returns NaN. *)
Theorem PiecewiseLinearSpectrum_eval_returns
  (l values : list Float) (p : PiecewiseLinearSpectrum) (x : Float) :
  PiecewiseLinearSpectrum_new l values = Ret p ->
  (2 <= List.length l)%nat ->
  size l <= INT_MAX ->
  (isnan x = false -> exists y, PiecewiseLinearSpectrum_eval p x = Ret y)
  /\ (isnan x = true ->
      PiecewiseLinearSpectrum_eval p x = if debug_build then CheckFailed else Ret nan).
Proof.
  intros Hnew Hlen Hmax.
  assert (Hne : l <> []) by (intros ->; simpl in Hlen; lia).
  destruct (PiecewiseLinearSpectrum_new_Ret l values p Hne Hnew) as (-> & Hsz & Hinc & _).
  split.
  - intros Hx.
    apply PiecewiseLinearSpectrum_eval_total; try assumption. unfold size; lia.
  - intros Hx.
    rewrite PiecewiseLinearSpectrum_eval_branches by assumption. cbv zeta.
    rewrite (fle_nan_l x _ Hx).
    change (fge x (nth (List.length l - 1) l nan))
      with (fle (nth (List.length l - 1) l nan) x).
    rewrite (fle_nan_r _ x Hx).
    rewrite (PiecewiseLinearSpectrum_interpolate_boundary l values x 0);
      [| assumption | unfold size; lia | assumption | unfold size; lia
       | intros j Hj; lia
       | intros j Hj; now apply fle_nan_r].
    cbv zeta. unfold Clamp. change (0 - 1 <? 0) with true. cbv iota.
    change (Z.to_nat 0) with 0%nat.
    change (fge x (nth 0 l nan)) with (fle (nth 0 l nan) x).
    rewrite (fle_nan_r _ x Hx). cbn [andb negb]. rewrite andb_true_r.
    rewrite (Lerp_nan x _ _ _ _ Hx). reflexivity.
Qed.

(** A spectrum of one sample [(a, v0)]: [operator()] returns [v0] when
    [l <= a] or [l >= a]. When neither comparison holds (one of the two is
    NaN) the search ends at offset 0: a build that keeps the DCHECK stops
    at it, [l >= lambda[0]] being false; a build that drops it goes on to
    read [lambda[1]], outside the array. *)
Theorem PiecewiseLinearSpectrum_eval_one_sample (a v0 x : Float) :
  PiecewiseLinearSpectrum_new [a] [v0] = Ret {| pls_lambda := [a]; pls_v := [v0] |}
  /\ PiecewiseLinearSpectrum_eval {| pls_lambda := [a]; pls_v := [v0] |} x
     = (if fle x a || fge x a then Ret v0
        else if debug_build then CheckFailed else OutOfBounds)
  /\ (isnan a = false -> isnan x = false ->
      PiecewiseLinearSpectrum_eval {| pls_lambda := [a]; pls_v := [v0] |} x = Ret v0)
  /\ (isnan x = true ->
      PiecewiseLinearSpectrum_eval {| pls_lambda := [a]; pls_v := [v0] |} x
      = if debug_build then CheckFailed else OutOfBounds).
Proof.
  assert (Heq : PiecewiseLinearSpectrum_eval {| pls_lambda := [a]; pls_v := [v0] |} x
                = (if fle x a || fge x a then Ret v0
                   else if debug_build then CheckFailed else OutOfBounds)).
  { rewrite PiecewiseLinearSpectrum_eval_branches by (discriminate || reflexivity).
    cbv zeta. cbn [List.length Nat.sub nth].
    destruct (fle x a); [reflexivity|]. destruct (fge x a) eqn:E; [reflexivity|].
    cbn [orb].
    unfold PiecewiseLinearSpectrum_interpolate, FindInterval.
    change (size [a]) with 1. change (Z.to_nat 1) with 1%nat.
    cbn [FindInterval_loop]. change (0 <? 1) with true. cbv iota zeta.
    change (Z.shiftr 1 1) with 0. change (0 + 0) with 0.
    change (int_of_size_t 0) with 0. change (size_t_wrap 0) with 0.
    rewrite vec_get_0_cons. cbn [bind].
    change (fle a x) with (fge x a). rewrite E. cbn [bind].
    change (Clamp (0 - 1) 0 (1 - 2)) with 0.
    change (int_of_size_t 0) with 0. change (size_t_wrap 0) with 0.
    change (int_result (0 + 1)) with (Ret 1). change (size_t_wrap 1) with 1.
    unfold DCHECK. rewrite vec_get_0_cons. cbn [bind]. rewrite E.
    destruct debug_build; cbn [bind CHECK]; [reflexivity|].
    change (size_t_wrap 1) with 1.
    now rewrite (vec_get_out [a] 1) by (unfold size; simpl; lia). }
  split; [reflexivity|]. split; [exact Heq|]. split.
  - intros Ha Hx. rewrite Heq. change (fge x a) with (fle a x).
    destruct (fle_or_flt x a Hx Ha) as [H|H].
    + now rewrite H.
    + now rewrite (flt_fle _ _ H), orb_true_r.
  - intros Hx. rewrite Heq. change (fge x a) with (fle a x).
    now rewrite (fle_nan_l x a Hx), (fle_nan_r a x Hx).
Qed.

(** At the first and at the last sample wavelength a constructed spectrum
    returns the first and the last sample value. *)
Theorem PiecewiseLinearSpectrum_eval_endpoints
  (l values : list Float) (p : PiecewiseLinearSpectrum) :
  l <> [] ->
  PiecewiseLinearSpectrum_new l values = Ret p ->
  let n := List.length l in
  isnan (nth 0 l nan) = false -> isnan (nth (n - 1) l nan) = false ->
  PiecewiseLinearSpectrum_eval p (nth 0 l nan) = Ret (nth 0 values nan)
  /\ PiecewiseLinearSpectrum_eval p (nth (n - 1) l nan) = Ret (nth (n - 1) values nan).
Proof.
  intros Hne Hnew. cbv zeta. intros Hfirst Hlast.
  destruct (PiecewiseLinearSpectrum_new_Ret l values p Hne Hnew) as (-> & Hsz & Hinc & _).
  assert (Hn : (1 <= List.length l)%nat) by (destruct l; [congruence | simpl; lia]).
  rewrite !PiecewiseLinearSpectrum_eval_branches by assumption. cbv zeta.
  rewrite (fle_refl _ Hfirst). split; [reflexivity|].
  change (fge (nth (List.length l - 1) l nan) (nth (List.length l - 1) l nan))
    with (fle (nth (List.length l - 1) l nan) (nth (List.length l - 1) l nan)).
  rewrite (fle_refl _ Hlast).
  destruct (increasing_le l nan Hinc 0 (List.length l - 1)) as [H0|Hlt]; [lia | lia | |].
  - rewrite <- H0. now rewrite (fle_refl _ Hfirst).
  - now rewrite (flt_not_fle _ _ Hlt).
Qed.

(** ** MakeSpectrumFromInterleaved *)

Lemma vec_get_app_l {A : Type} (pre rest : list A) (i : Z) :
  0 <= i < size pre -> vec_get (pre ++ rest) i = vec_get pre i.
Proof.
  intros Hi. unfold vec_get. rewrite size_app.
  pose proof (size_nonneg rest).
  rewrite !(proj2 (Z.leb_le _ _)) by lia.
  rewrite !(proj2 (Z.ltb_lt _ _)) by lia. cbn [andb].
  rewrite nth_error_app1 by (unfold size in Hi; lia). reflexivity.
Qed.

Lemma vec_set_app {A : Type} (pre rest : list A) (x y : A) :
  vec_set (pre ++ x :: rest) (size pre) y = Ret (pre ++ y :: rest).
Proof.
  unfold vec_set. rewrite size_app, size_cons.
  pose proof (size_nonneg pre). pose proof (size_nonneg rest).
  rewrite (proj2 (Z.leb_le _ _)), (proj2 (Z.ltb_lt _ _)) by lia. cbn [andb].
  unfold size. now rewrite Nat2Z.id, list_set_app.
Qed.

Lemma size_map {A B : Type} (f : A -> B) (l : list A) : size (map f l) = size l.
Proof. unfold size. now rewrite length_map. Qed.

Lemma Interleaved_loop_spec (rest : list (Float * Float)) :
  forall done : list (Float * Float),
    Interleaved_loop (flatten_pairs (done ++ rest)) (List.length rest) (size done)
      (map fst done ++ repeat zero (List.length rest))
      (map snd done ++ repeat zero (List.length rest))
    = if increasing (match last_lambda done with
                     | Some q => q :: map fst rest
                     | None => map fst rest
                     end)
      then Ret (map fst (done ++ rest), map snd (done ++ rest))
      else CheckFailed.
Proof.
  induction rest as [|p rest IH]; intros done.
  - cbn [Interleaved_loop List.length repeat map]. rewrite !app_nil_r.
    now destruct (last_lambda done) as [q|].
  - cbn [Interleaved_loop List.length repeat].
    rewrite flatten_pairs_app.
    change (flatten_pairs (p :: rest)) with (fst p :: snd p :: flatten_pairs rest).
    replace (2 * size done) with (size (flatten_pairs done) + 0)
      by (rewrite size_flatten_pairs; lia).
    rewrite vec_get_app_r, vec_get_0_cons by lia. cbn [bind].
    rewrite <- (size_map fst done) at 1. rewrite vec_set_app. cbn [bind].
    replace (size (flatten_pairs done) + 0 + 1) with (size (flatten_pairs done) + 1) by lia.
    rewrite vec_get_app_r, vec_get_1_cons by lia. cbn [bind].
    rewrite <- (size_map snd done) at 1. rewrite vec_set_app. cbn [bind].
    specialize (IH (done ++ [p])).
    rewrite <- app_assoc in IH. cbn [app] in IH.
    rewrite flatten_pairs_app in IH.
    change (flatten_pairs (p :: rest)) with (fst p :: snd p :: flatten_pairs rest) in IH.
    rewrite size_app, size_cons in IH. change (size (@nil (Float * Float))) with 0 in IH.
    replace (size done + (0 + 1)) with (size done + 1) in IH by lia.
    rewrite !map_app in IH. cbn [map] in IH. rewrite <- !app_assoc in IH. cbn [app] in IH.
    assert (Hlast : last_lambda (done ++ [p]) = Some (fst p))
      by (unfold last_lambda; now rewrite rev_app_distr).
    rewrite Hlast in IH.
    destruct (0 <? size done) eqn:Hi.
    + destruct (exists_last (l := done)) as (done' & q & ->).
      { intros ->. discriminate. }
      assert (Hq : last_lambda (done' ++ [q]) = Some (fst q))
        by (unfold last_lambda; now rewrite rev_app_distr).
      rewrite Hq.
      apply Z.ltb_lt in Hi.
      assert (Hcur : vec_get (map fst (done' ++ [q]) ++ fst p :: repeat zero (List.length rest))
                       (size (done' ++ [q])) = Ret (fst p)).
      { rewrite <- (size_map fst (done' ++ [q])).
        rewrite <- (Z.add_0_r (size (map fst (done' ++ [q])))).
        rewrite vec_get_app_r by lia. apply vec_get_0_cons. }
      assert (Hprev : vec_get (map fst (done' ++ [q]) ++ fst p :: repeat zero (List.length rest))
                        (size (done' ++ [q]) - 1) = Ret (fst q)).
      { rewrite vec_get_app_l by (rewrite size_map; lia).
        rewrite <- (size_map fst (done' ++ [q])), map_app. apply back_snoc. }
      rewrite Hcur. cbn [bind]. rewrite Hprev. cbn [bind].
      rewrite (map_app fst (done' ++ [q])), (map_app snd (done' ++ [q])).
      change (map fst (p :: rest)) with (fst p :: map fst rest).
      change (map snd (p :: rest)) with (snd p :: map snd rest).
      change (increasing (fst q :: fst p :: map fst rest))
        with (flt (fst q) (fst p) && increasing (fst p :: map fst rest)).
      change (fgt (fst p) (fst q)) with (flt (fst q) (fst p)).
      destruct (flt (fst q) (fst p)); cbn [CHECK bind andb]; [exact IH | reflexivity].
    + destruct done as [|d done].
      2:{ rewrite size_cons in Hi. pose proof (size_nonneg done).
          apply Z.ltb_ge in Hi. lia. }
      cbn [bind]. unfold last_lambda at 1. cbn [rev]. exact IH.
Qed.

(** [MakeSpectrumFromInterleaved] on whole pairs: a wavelength that is not
    greater than the one before it fails CHECK_GT; otherwise the outcome is
    the constructor's on the two arrays, then the normalisation. *)
Lemma MakeSpectrumFromInterleaved_pairs (fuel : nat) (ps : list (Float * Float))
  (normalize : bool) :
  size ps <= INT_MAX ->
  MakeSpectrumFromInterleaved fuel (flatten_pairs ps) normalize
  = if increasing (map fst ps) then
      spec <- PiecewiseLinearSpectrum_new (map fst ps) (map snd ps) ;;
      if normalize then
        y <- SpectrumToY_of fuel (PiecewiseLinearSpectrum_eval spec) ;;
        Ret (Interleaved_scaled (fdiv one y) spec)
      else Ret (Interleaved_plain spec)
    else CheckFailed.
Proof.
  intros Hn. unfold MakeSpectrumFromInterleaved.
  rewrite size_flatten_pairs.
  replace (2 * size ps mod 2) with 0 by (rewrite Z.mul_comm, Z_mod_mult; reflexivity).
  cbn [Z.eqb CHECK bind].
  replace (2 * size ps / 2) with (size ps) by (rewrite Z.mul_comm, Z_div_mult; lia).
  pose proof (size_nonneg ps) as H0.
  rewrite int_of_size_t_small by lia.
  assert (Hmod : INT_MAX < vector_max_size) by reflexivity.
  pose proof vector_max_size_lt as Hvm.
  rewrite size_t_wrap_small by lia.
  unfold vector_new. rewrite (proj2 (Z.leb_le _ _)) by lia. cbn [bind].
  replace (Z.to_nat (size ps)) with (List.length ps) by (unfold size; lia).
  pose proof (Interleaved_loop_spec ps []) as H. cbn [app map] in H.
  change (size (@nil (Float * Float))) with 0 in H. rewrite H.
  unfold last_lambda. cbn [rev].
  destruct (increasing (map fst ps)); reflexivity.
Qed.

(** An odd number of samples is a fatal assertion. *)
Theorem MakeSpectrumFromInterleaved_odd (fuel : nat) (samples : list Float)
  (normalize : bool) :
  size samples mod 2 <> 0 ->
  MakeSpectrumFromInterleaved fuel samples normalize = CheckFailed.
Proof.
  intros Hodd. unfold MakeSpectrumFromInterleaved.
  rewrite (proj2 (Z.eqb_neq _ _)) by (intros H; now apply Hodd). reflexivity.
Qed.

(** A wavelength that is not greater than its predecessor (a NaN among the
    wavelengths included) is a fatal assertion, with or without
    normalisation. *)
Theorem MakeSpectrumFromInterleaved_not_increasing (fuel : nat)
  (ps : list (Float * Float)) (normalize : bool) :
  size ps <= INT_MAX ->
  increasing (map fst ps) = false ->
  MakeSpectrumFromInterleaved fuel (flatten_pairs ps) normalize = CheckFailed.
Proof.
  intros Hn Hinc. rewrite MakeSpectrumFromInterleaved_pairs by assumption.
  now rewrite Hinc.
Qed.

(** Strictly increasing wavelengths, at least one pair, no normalisation:
    the piecewise-linear spectrum of the de-interleaved arrays. *)
Theorem MakeSpectrumFromInterleaved_well_formed (fuel : nat)
  (ps : list (Float * Float)) :
  ps <> [] ->
  size ps <= INT_MAX ->
  increasing (map fst ps) = true ->
  MakeSpectrumFromInterleaved fuel (flatten_pairs ps) false
  = Ret (Interleaved_plain {| pls_lambda := map fst ps; pls_v := map snd ps |}).
Proof.
  intros Hne Hn Hinc. rewrite MakeSpectrumFromInterleaved_pairs by assumption.
  rewrite Hinc. destruct ps as [|p ps]; [congruence|].
  assert (Hmax : INT_MAX < vector_max_size) by reflexivity.
  pose proof (size_map fst (p :: ps)) as Hl.
  pose proof (size_map snd (p :: ps)) as Hv.
  cbn [map] in *.
  rewrite PiecewiseLinearSpectrum_new_nonempty by lia.
  rewrite (proj2 (Z.eqb_eq _ _) (eq_trans Hl (eq_sym Hv))), Hinc. reflexivity.
Qed.

(** On the values of a readable file, [MakeSpectrumFromInterleaved] without
    normalisation returns a spectrum exactly when [Read] does, and the same
    one. *)
Theorem MakeSpectrumFromInterleaved_Read (fuel : nat) (fn : string)
  (ps : list (Float * Float)) (p : PiecewiseLinearSpectrum) :
  ReadFloatFile fn = Some (flatten_pairs ps) ->
  size ps <= INT_MAX ->
  snd (PiecewiseLinearSpectrum_Read fn) = Ret (Some p)
  <-> MakeSpectrumFromInterleaved fuel (flatten_pairs ps) false
      = Ret (Interleaved_plain p).
Proof.
  intros Hfile Hn.
  rewrite (Read_pairs fn ps Hfile), MakeSpectrumFromInterleaved_pairs by assumption.
  destruct ps as [|q ps].
  - cbn [first_bad map increasing snd].
    assert (E : PiecewiseLinearSpectrum_new [] [] = OutOfBounds) by reflexivity.
    rewrite E. cbn [bind]. split; discriminate.
  - destruct (increasing (map fst (q :: ps))) eqn:Hinc.
    + cbn [map] in Hinc. cbn [first_bad].
      rewrite (first_bad_increasing fn ps (fst q) (0 + 1) Hinc). cbn [snd].
      destruct (PiecewiseLinearSpectrum_new (map fst (q :: ps)) (map snd (q :: ps)));
        cbn [bind]; split; intros H; congruence.
    + split; [|discriminate]. intros H.
      destruct (first_bad fn None 0 (q :: ps)); cbn [snd] in H; [discriminate|].
      destruct (PiecewiseLinearSpectrum_new (map fst (q :: ps)) (map snd (q :: ps)))
        as [p'| | | | |] eqn:E; cbn [bind] in H; try discriminate.
      apply PiecewiseLinearSpectrum_new_Ret in E; [|discriminate].
      destruct E as (_ & _ & E & _). congruence.
Qed.

Lemma for_lambda_stop_range {A : Type} (body : Float -> A -> outcome A)
  (body' : Float -> A -> A) :
  (forall (k : Z) (a : A), 360 <= k <= 830 -> body (of_Z k) a = Ret (body' (of_Z k) a)) ->
  forall (n start fuel : nat) (acc : A),
    (360 <= start)%nat -> (start + n = 831)%nat -> (n < fuel)%nat ->
    for_lambda_stop fuel body (of_Z (Z.of_nat start)) acc
    = Ret (fold_left (fun a k => body' (of_Z k) a) (map Z.of_nat (seq start n)) acc).
Proof.
  intros Hbody.
  induction n as [|n IH]; intros start fuel acc Hlo Hhi Hfuel;
    (destruct fuel as [|fuel]; [lia|]); cbn [for_lambda_stop].
  - replace start with 831%nat by lia.
    change (Z.of_nat 831) with 831.
    now rewrite (proj2 wavelength_steps).
  - destruct (wavelength_step start) as [Hle Hnext]; [lia|].
    rewrite Hle, Hnext, Hbody by lia. cbn [bind seq map fold_left]. apply IH; lia.
Qed.

Lemma SpectrumToY_of_total (fuel : nat) (s : Float -> outcome Float)
  (f : Float -> Float) :
  (forall k : Z, 360 <= k <= 830 -> s (of_Z k) = Ret (f (of_Z k))) ->
  (472 <= fuel)%nat ->
  SpectrumToY_of fuel s
  = Ret (fdiv (Riemann_sum (spectrum_eval SPDs_Y) f) CIE_Y_integral).
Proof.
  intros Hs Hfuel. unfold SpectrumToY_of.
  change LambdaMin with (of_Z (Z.of_nat 360)).
  rewrite (for_lambda_stop_range
             (fun lambda y =>
                sl <- s lambda ;;
                Ret (fadd y (fmul (spectrum_eval SPDs_Y lambda) sl)))
             (fun lambda y => fadd y (fmul (spectrum_eval SPDs_Y lambda) (f lambda)))
             ltac:(intros k a Hk; cbv beta; now rewrite Hs) 471 360) by lia.
  cbn [bind].
  fold integer_wavelengths. unfold Riemann_sum.
  generalize integer_wavelengths as ks. intros ks. reflexivity.
Qed.

Lemma integer_wavelengths_not_nan :
  forallb (fun k => negb (isnan (of_Z k))) integer_wavelengths = true.
Proof. vm_compute. reflexivity. Qed.

Lemma integer_wavelength_not_nan (k : Z) : 360 <= k <= 830 -> isnan (of_Z k) = false.
Proof.
  intros Hk. pose proof integer_wavelengths_not_nan as Hall.
  rewrite forallb_forall in Hall.
  apply negb_true_iff, Hall. unfold integer_wavelengths.
  replace k with (Z.of_nat (Z.to_nat k)) by lia. apply in_map, in_seq. lia.
Qed.

(** With normalisation and at least two well-formed pairs the call always
    returns: a [ScaledSpectrum] over the piecewise-linear spectrum whose
    scale is one over the luminance sum of that spectrum. No wavelength of
    the sum reads outside the arrays. *)
Theorem MakeSpectrumFromInterleaved_normalize (fuel : nat)
  (ps : list (Float * Float)) :
  (2 <= List.length ps)%nat ->
  size ps <= INT_MAX ->
  increasing (map fst ps) = true ->
  (472 <= fuel)%nat ->
  let p := {| pls_lambda := map fst ps; pls_v := map snd ps |} in
  MakeSpectrumFromInterleaved fuel (flatten_pairs ps) true
  = Ret (Interleaved_scaled
           (fdiv one (fdiv (Riemann_sum (spectrum_eval SPDs_Y)
                                        (PiecewiseLinearSpectrum_value p))
                           CIE_Y_integral))
           p).
Proof.
  intros Hlen Hn Hinc Hfuel. cbv zeta.
  rewrite MakeSpectrumFromInterleaved_pairs by assumption.
  rewrite Hinc. destruct ps as [|q ps]; [simpl in Hlen; lia|].
  assert (Hmax : INT_MAX < vector_max_size) by reflexivity.
  pose proof (size_map fst (q :: ps)) as Hl.
  pose proof (size_map snd (q :: ps)) as Hv.
  assert (H2 : 2 <= size (q :: ps)) by (unfold size; lia).
  cbn [map] in *.
  rewrite PiecewiseLinearSpectrum_new_nonempty by lia.
  rewrite (proj2 (Z.eqb_eq _ _) (eq_trans Hl (eq_sym Hv))), Hinc. cbn [bind].
  rewrite (SpectrumToY_of_total fuel _
             (PiecewiseLinearSpectrum_value
                {| pls_lambda := fst q :: map fst ps; pls_v := snd q :: map snd ps |}));
    [reflexivity| |assumption].
  intros k Hk. apply PiecewiseLinearSpectrum_eval_value;
    [lia | lia | lia | exact Hinc | now apply integer_wavelength_not_nan].
Qed.

(** ** More on [Read]: wavelengths that are NaN *)

Lemma first_bad_None_increasing (fn : string) (ps : list (Float * Float)) :
  Forall (fun p => isnan (fst p) = false) ps ->
  forall (q : Float) (i : Z),
    isnan q = false ->
    first_bad fn (Some q) i ps = None -> increasing (q :: map fst ps) = true.
Proof.
  induction 1 as [|p ps Hp Hps IH]; intros q i Hq Hbad; [reflexivity|].
  cbn [first_bad] in Hbad. cbn [map increasing].
  destruct (fle (fst p) q) eqn:Hle; [discriminate|].
  destruct (fle_or_flt (fst p) q Hp Hq) as [H|H]; [congruence|].
  rewrite H. cbn [andb]. now apply (IH (fst p) (i + 1)).
Qed.

Lemma increasing_nan (l : list Float) (x : Float) :
  In x l -> isnan x = true -> (2 <= List.length l)%nat -> increasing l = false.
Proof.
  induction l as [|a t IH]; intros Hin Hx Hlen; [contradiction|].
  destruct t as [|b t]; [simpl in Hlen; lia|].
  cbn [increasing].
  destruct (flt a b) eqn:Hlt; [|reflexivity]. cbn [andb].
  destruct (flt_not_nan a b Hlt) as [Ha Hb].
  destruct Hin as [->|Hin]; [congruence|].
  destruct t as [|c t].
  - destruct Hin as [->|[]]. congruence.
  - apply IH; [exact Hin | exact Hx | simpl; lia].
Qed.

(** When no wavelength of the file is NaN, [Read] never ends in a fatal
    assertion: it warns and returns the empty optional, or it returns the
    spectrum of the pairs. *)
Theorem Read_without_nan (fn : string) (ps : list (Float * Float)) :
  ReadFloatFile fn = Some (flatten_pairs ps) ->
  ps <> [] -> size ps <= vector_max_size ->
  Forall (fun p => isnan (fst p) = false) ps ->
  (exists w, PiecewiseLinearSpectrum_Read fn = ([w], Ret None))
  \/ PiecewiseLinearSpectrum_Read fn
     = ([], Ret (Some {| pls_lambda := map fst ps; pls_v := map snd ps |})).
Proof.
  intros Hfile Hne Hsz Hnan. rewrite (Read_pairs fn ps Hfile).
  destruct (first_bad fn None 0 ps) as [w|] eqn:Hbad; [left; now exists w|].
  right. destruct ps as [|p ps]; [congruence|].
  cbn [first_bad] in Hbad. inversion Hnan as [|? ? Hp Hps]; subst.
  pose proof (first_bad_None_increasing fn ps Hps (fst p) (0 + 1) Hp Hbad) as Hinc.
  pose proof (size_map fst (p :: ps)) as Hl.
  pose proof (size_map snd (p :: ps)) as Hv.
  cbn [map] in *.
  rewrite PiecewiseLinearSpectrum_new_nonempty by lia.
  now rewrite (proj2 (Z.eqb_eq _ _) (eq_trans Hl (eq_sym Hv))), Hinc.
Qed.

(** A NaN among the wavelengths of at least two pairs, in a file whose
    entries all pass the [<=] test of [Read] (a comparison with NaN is
    false): no warning is given, and the constructor's CHECK_LT stops the
    process. *)
Theorem Read_nan_wavelength (fn : string) (ps : list (Float * Float)) (x : Float) :
  ReadFloatFile fn = Some (flatten_pairs ps) ->
  (2 <= List.length ps)%nat -> size ps <= vector_max_size ->
  In x (map fst ps) -> isnan x = true ->
  first_bad fn None 0 ps = None ->
  PiecewiseLinearSpectrum_Read fn = ([], CheckFailed).
Proof.
  intros Hfile Hlen Hsz Hin Hx Hbad. rewrite (Read_pairs fn ps Hfile), Hbad.
  assert (Hinc : increasing (map fst ps) = false)
    by (apply (increasing_nan _ x Hin Hx); now rewrite length_map).
  destruct ps as [|p ps]; [simpl in Hlen; lia|].
  pose proof (size_map fst (p :: ps)) as Hl.
  pose proof (size_map snd (p :: ps)) as Hv.
  cbn [map] in *.
  rewrite PiecewiseLinearSpectrum_new_nonempty by lia.
  now rewrite (proj2 (Z.eqb_eq _ _) (eq_trans Hl (eq_sym Hv))), Hinc.
Qed.

(** ** SpectrumToY against SpectrumToXYZ, y against ToXYZ *)

Lemma for_lambda_Y (s : SpectrumHandle) :
  forall (fuel : nat) (lambda : Float) (acc : XYZ),
    for_lambda fuel
      (fun lambda y =>
         fadd y (fmul (spectrum_eval SPDs_Y lambda) (spectrum_eval s lambda)))
      lambda (xyz_Y acc)
    = (xyz <- for_lambda fuel
                (fun lambda xyz =>
                   {| xyz_X := fadd (xyz_X xyz)
                                 (fmul (spectrum_eval SPDs_X lambda) (spectrum_eval s lambda));
                      xyz_Y := fadd (xyz_Y xyz)
                                 (fmul (spectrum_eval SPDs_Y lambda) (spectrum_eval s lambda));
                      xyz_Z := fadd (xyz_Z xyz)
                                 (fmul (spectrum_eval SPDs_Z lambda) (spectrum_eval s lambda)) |})
                lambda acc ;;
       Ret (xyz_Y xyz)).
Proof.
  induction fuel as [|fuel IH]; intros lambda acc; [reflexivity|].
  cbn [for_lambda]. destruct (fle lambda LambdaMax); [|reflexivity].
  rewrite <- IH. reflexivity.
Qed.

(** Whatever the number of iterations allowed, [SpectrumToY] ends as
    [SpectrumToXYZ] does, and its value is the Y component of that result. *)
Theorem SpectrumToY_is_Y_of_SpectrumToXYZ (fuel : nat) (s : SpectrumHandle) :
  SpectrumToY fuel s = (xyz <- SpectrumToXYZ fuel s ;; Ret (xyz_Y xyz)).
Proof.
  unfold SpectrumToY, SpectrumToXYZ.
  pose proof (for_lambda_Y s fuel LambdaMin XYZ_zero) as H.
  cbn [XYZ_zero xyz_Y] in H. rewrite H.
  destruct (for_lambda fuel _ LambdaMin XYZ_zero); reflexivity.
Qed.

(** [SampledSpectrum::y] is the Y component of [SampledSpectrum::ToXYZ]. *)
Theorem SampledSpectrum_y_is_Y_of_ToXYZ (v : SampledSpectrum)
  (lambda : SampledWavelengths) :
  SampledSpectrum_y v lambda = xyz_Y (SampledSpectrum_ToXYZ v lambda).
Proof.
  unfold SampledSpectrum_y, SampledSpectrum_ToXYZ, SampledSpectrum_y_run,
    SampledSpectrum_ToXYZ_run, XYZ_zero, XYZ_div.
  rewrite y_step_fold, ToXYZ_step_fold. reflexivity.
Qed.

Lemma fold_left_ext_in {A B : Type} (f g : A -> B -> A) (l : list B) :
  (forall x, In x l -> forall a, f a x = g a x) ->
  forall a, fold_left f l a = fold_left g l a.
Proof.
  induction l as [|x l IH]; intros H a; [reflexivity|].
  cbn [fold_left]. rewrite (H x) by now left.
  apply IH. intros y Hy. apply H. now right.
Qed.

(** The value of a sample whose PDF is 0 has no influence: two spectra that
    agree at every sample of non-zero PDF have the same [y] and the same
    [ToXYZ], whatever they hold elsewhere (NaN included). *)
Theorem SampledSpectrum_y_ToXYZ_zero_pdf (v v' : SampledSpectrum)
  (lambda : SampledWavelengths) :
  (forall i : nat, (i < NSpectrumSamples)%nat ->
     feq (at_ (swl_pdf lambda) i) zero = false -> at_ v i = at_ v' i) ->
  SampledSpectrum_y v lambda = SampledSpectrum_y v' lambda
  /\ SampledSpectrum_ToXYZ v lambda = SampledSpectrum_ToXYZ v' lambda.
Proof.
  intros Hagree.
  assert (Hin : forall i,
             In i (filter (fun i => negb (feq (at_ (swl_pdf lambda) i) zero))
                          (seq 0 NSpectrumSamples)) ->
             at_ v i = at_ v' i).
  { intros i Hi. apply filter_In in Hi as [Hi Hnz]. apply in_seq in Hi.
    apply negb_true_iff in Hnz. apply Hagree; [lia | exact Hnz]. }
  unfold SampledSpectrum_y, SampledSpectrum_ToXYZ, SampledSpectrum_y_run,
    SampledSpectrum_ToXYZ_run, XYZ_zero, XYZ_div.
  rewrite !y_step_fold, !ToXYZ_step_fold. cbn [fst xyz_X xyz_Y xyz_Z].
  split; [f_equal | f_equal; f_equal];
    apply fold_left_ext_in; intros i Hi a; now rewrite (Hin i Hi).
Qed.

(** ** Sample of the analytic and composite kinds, once more *)

Lemma for_samples_const (f : nat -> outcome Float) (c : Float) :
  (forall i, f i = Ret c) ->
  forall todo i : nat, for_samples f i todo = Ret (repeat c todo).
Proof.
  intros Hf. induction todo as [|todo IH]; intros i; [reflexivity|].
  cbn [for_samples repeat]. now rewrite Hf, IH.
Qed.

(** A temperature [T <= 0]: [BlackbodySpectrum::Sample] returns, at every
    sample, [scale * 0], whatever the wavelengths are; no assertion can
    fire. *)
Theorem BlackbodySpectrum_Sample_cold (T scale : Float) (lambda : SampledWavelengths) :
  fle T zero = true ->
  BlackbodySpectrum_Sample T scale lambda
  = Ret (ConstantSpectrum_Sample (fmul scale zero) lambda).
Proof.
  intros HT. unfold BlackbodySpectrum_Sample, ConstantSpectrum_Sample,
    SampledSpectrum_const.
  apply for_samples_const. intros i. unfold Blackbody. now rewrite HT.
Qed.

(** ** More on the named spectra *)

Lemma GetNamed_in_None (m : list (string * SpectrumHandle)) (name : string) :
  GetNamed_in m name = None <-> ~ In name (map fst m).
Proof.
  induction m as [|[k h] rest IH]; cbn [GetNamed_in map fst In].
  - split; [intros _ H; exact H | reflexivity].
  - destruct (String.eqb k name) eqn:E.
    + apply String.eqb_eq in E. split; [discriminate|].
      intros H. exfalso. apply H. now left.
    + apply String.eqb_neq in E. rewrite IH. split.
      * intros H [H1|H1]; [now apply E | now apply H].
      * intros H H1. apply H. now right.
Qed.

(** [GetNamed] returns the null handle exactly for the names that are not
    registered, and otherwise a handle registered under that name. *)
Theorem GetNamed_spec (name : string) :
  (GetNamed name = None <-> ~ In name (map fst namedSPDs))
  /\ (forall h, GetNamed name = Some h -> In (name, h) namedSPDs).
Proof.
  split; [apply GetNamed_in_None | intros h; apply GetNamed_in_Some].
Qed.

Lemma FindMatchingNamed_in_first (s : SpectrumHandle) (k : string)
  (h : SpectrumHandle) (post : list (string * SpectrumHandle)) :
  forall pre : list (string * SpectrumHandle),
    Forall (fun e => sampledLambdasMatch s (snd e) = false) pre ->
    sampledLambdasMatch s h = true ->
    FindMatchingNamed_in (pre ++ (k, h) :: post) s = k.
Proof.
  induction pre as [|e pre IH]; intros Hpre Hm; cbn [app FindMatchingNamed_in fst snd].
  - now rewrite Hm.
  - inversion Hpre as [|? ? He Hpre']; subst. rewrite He. now apply IH.
Qed.

(** [FindMatchingNamed] returns the name of the first entry, in the order
    of the table, whose spectrum matches; later matches are not looked at. *)
Theorem FindMatchingNamed_first (s : SpectrumHandle) (k : string)
  (h : SpectrumHandle) (pre post : list (string * SpectrumHandle)) :
  namedSPDs = pre ++ (k, h) :: post ->
  Forall (fun e => sampledLambdasMatch s (snd e) = false) pre ->
  sampledLambdasMatch s h = true ->
  FindMatchingNamed s = k.
Proof.
  intros Heq Hpre Hm. unfold FindMatchingNamed. rewrite Heq.
  now apply FindMatchingNamed_in_first.
Qed.

Lemma feq_nan_l (a b : Float) : isnan a = true -> feq a b = false.
Proof. destruct a; simpl; try discriminate; reflexivity. Qed.

Lemma lambdas_match_nan (a b : SpectrumHandle) (l : Float) :
  forall ls : list Float,
    In l ls -> isnan (spectrum_eval a l) = true -> lambdas_match a b ls = false.
Proof.
  induction ls as [|l' ls IH]; intros Hin Hn; [contradiction|].
  cbn [lambdas_match]. destruct Hin as [->|Hin].
  - unfold fne. now rewrite feq_nan_l.
  - destruct (fne (spectrum_eval a l') (spectrum_eval b l')); [reflexivity|].
    now apply IH.
Qed.

(** A spectrum that is NaN at one of the probe wavelengths matches no
    entry, not even itself: the result is the empty string. *)
Theorem FindMatchingNamed_nan (s : SpectrumHandle) (l : Float) :
  In l wls -> isnan (spectrum_eval s l) = true ->
  FindMatchingNamed s = EmptyString.
Proof.
  intros Hin Hn. apply FindMatchingNamed_in_none. intros name h _.
  now apply (lambdas_match_nan s h l).
Qed.

(** ** DenselySampledSpectrum: the upper end of [int] *)

Lemma DenselySampledSpectrum_fill_overflow (s : SpectrumHandle) (lambdaMin : Z) :
  0 < lambdaMin ->
  forall (todo fuel : nat) (done : list Float),
    lambdaMin + Z.of_nat (List.length done) + Z.of_nat todo = INT_MAX ->
    (todo < fuel)%nat ->
    DenselySampledSpectrum_fill fuel s lambdaMin INT_MAX
      (lambdaMin + Z.of_nat (List.length done)) (done ++ repeat zero (S todo))
    = SignedOverflow.
Proof.
  intros Hmin.
  assert (Hint : INT_MIN = - 2 ^ 31 /\ INT_MAX = 2 ^ 31 - 1) by (split; reflexivity).
  assert (Hmod : INT_MAX < size_t_modulus) by reflexivity.
  induction todo as [|todo IH]; intros fuel done Hsum Hfuel;
    (destruct fuel as [|fuel]; [lia|]); cbn [DenselySampledSpectrum_fill];
    rewrite (proj2 (Z.leb_le _ _)) by lia;
    replace (lambdaMin + Z.of_nat (List.length done) - lambdaMin)
      with (Z.of_nat (List.length done)) by lia;
    rewrite int_result_in by lia; cbn [bind];
    rewrite size_t_wrap_small by lia;
    change (Z.of_nat (List.length done)) with (size done) at 1;
    cbn [repeat]; rewrite vec_set_app; cbn [bind].
  - unfold int_result, in_int.
    rewrite (proj2 (Z.leb_gt (lambdaMin + Z.of_nat (List.length done) + 1) INT_MAX))
      by lia.
    now rewrite andb_false_r.
  - rewrite int_result_in by lia. cbn [bind].
    set (x := spectrum_eval s (fadd (of_Z (lambdaMin + Z.of_nat (List.length done))) half)).
    replace (done ++ x :: zero :: repeat zero todo)
      with ((done ++ [x]) ++ repeat zero (S todo))
      by (now rewrite <- app_assoc).
    replace (lambdaMin + Z.of_nat (List.length done) + 1)
      with (lambdaMin + Z.of_nat (List.length (done ++ [x])))
      by (rewrite length_app; simpl; lia).
    apply IH; [rewrite length_app; simpl; lia | lia].
Qed.

(** An ordered range that touches the upper end of [int]: when
    [lambdaMax - lambdaMin + 1] does not fit an [int] the element count
    overflows, and when [lambdaMax] is INT_MAX the loop's [++lambda]
    does, after the last entry is stored; the constructor does not return. *)
Theorem DenselySampledSpectrum_new_overflow (s : SpectrumHandle)
  (lambdaMin lambdaMax : Z) :
  INT_MIN <= lambdaMin -> lambdaMin <= lambdaMax -> lambdaMax <= INT_MAX ->
  lambdaMax = INT_MAX \/ INT_MAX <= lambdaMax - lambdaMin ->
  DenselySampledSpectrum_new s lambdaMin lambdaMax = SignedOverflow.
Proof.
  intros Hmin Hle Hmax Hcase.
  assert (Hint : INT_MIN = - 2 ^ 31 /\ INT_MAX = 2 ^ 31 - 1) by (split; reflexivity).
  unfold DenselySampledSpectrum_new.
  destruct (Z_lt_le_dec INT_MAX (lambdaMax - lambdaMin)) as [Hd|Hd].
  { unfold int_result at 1, in_int.
    rewrite (proj2 (Z.leb_gt (lambdaMax - lambdaMin) INT_MAX)) by lia.
    now rewrite andb_false_r. }
  rewrite int_result_in by lia. cbn [bind].
  destruct (Z.eq_dec (lambdaMax - lambdaMin) INT_MAX) as [He|He].
  { unfold int_result at 1, in_int.
    rewrite (proj2 (Z.leb_gt (lambdaMax - lambdaMin + 1) INT_MAX)) by lia.
    now rewrite andb_false_r. }
  assert (HM : lambdaMax = INT_MAX) by lia. subst lambdaMax.
  rewrite int_result_in by lia. cbn [bind].
  assert (Hvmax : INT_MAX < vector_max_size) by reflexivity.
  pose proof vector_max_size_lt as Hvm.
  rewrite size_t_wrap_small by lia.
  unfold vector_new. rewrite (proj2 (Z.leb_le _ _)) by lia. cbn [bind].
  rewrite (proj2 (Z.leb_le _ _) Hle). cbn [CHECK bind].
  pose proof (DenselySampledSpectrum_fill_overflow s lambdaMin ltac:(lia)
                (Z.to_nat (INT_MAX - lambdaMin))
                (S (List.length (repeat zero (Z.to_nat (INT_MAX - lambdaMin + 1)))))
                []) as H.
  cbn [List.length app] in H. rewrite Z.add_0_r in H.
  replace (S (Z.to_nat (INT_MAX - lambdaMin))) with (Z.to_nat (INT_MAX - lambdaMin + 1))
    in H by lia.
  rewrite H by (try rewrite repeat_length; lia). reflexivity.
Qed.

End Spectrum.

(** * Closed instances *)

Arguments RGBSpectrum_new {RGBSigmoidPolynomial} cs rgb.
Arguments rgbs_scale {RGBSigmoidPolynomial} _.
Arguments Build_RGBColorSpace {RGBSigmoidPolynomial} _ _.

(** The spectrum through (400, 1), (500, 3), (700, 2). *)
Definition example_lambda : list Float := [of_Z 400; of_Z 500; of_Z 700].
Definition example_values : list Float := [of_Z 1; of_Z 3; of_Z 2].
Definition example_pls : PiecewiseLinearSpectrum :=
  {| pls_lambda := example_lambda; pls_v := example_values |}.

(** A constant spectrum as a handle: four samples per [SampledSpectrum]. *)
Definition ConstantSpectrum_handle (c : Float) : SpectrumHandle :=
  {| spectrum_eval := fun _ => c;
     spectrum_Sample := ConstantSpectrum_Sample 4 c |}.

(** [CIE_Y_integral = 106.856895] as a [Float]. *)
Definition example_CIE_Y_integral : Float := of_bits 14005947 (-17).

(** A table of two named spectra, probed with a constant 2. *)
Definition example_namedSPDs : list (string * SpectrumHandle) :=
  [("one"%string, ConstantSpectrum_handle one);
   ("two"%string, ConstantSpectrum_handle (of_Z 2))].

(** A colour space whose illuminant is the constant 1 and whose
    coefficients are the RGB triple itself. *)
Definition example_illuminant : DenselySampledSpectrum :=
  {| dss_lambdaMin := 360; dss_lambdaMax := 830;
     dss_v := DenselySampledSpectrum_table (ConstantSpectrum_handle one) 360 830 |}.

Definition example_colorspace : RGBColorSpace RGB :=
  Build_RGBColorSpace example_illuminant (fun rgb => rgb).

Definition black : RGB := {| rgb_r := zero; rgb_g := zero; rgb_b := zero |}.

(** (1.7f, 0, 0). *)
Definition red_1_7 : RGB :=
  {| rgb_r := of_bits 14260634 (-23); rgb_g := zero; rgb_b := zero |}.

(** (+inf, 0, 0) and (2^-149, 0, 0). *)
Definition white_inf : RGB := {| rgb_r := pinf; rgb_g := zero; rgb_b := zero |}.
Definition red_tiny : RGB :=
  {| rgb_r := of_bits 1 (-149); rgb_g := zero; rgb_b := zero |}.

(** C1: [Read] on a readable file that holds no value (an empty file, or
    one of comments only). The count 0 is even and no entry is out of
    order, so [Read] reaches the constructor with two empty arrays, where
    the loop bound [lambda.size() - 1] wraps and [lambda[0]] is read out of
    bounds: no spectrum of zero pairs is returned. *)
Theorem Read_empty_file (fn : string) :
  PiecewiseLinearSpectrum_Read (fun _ => Some []) fn = ([], OutOfBounds).
Proof. reflexivity. Qed.

Lemma SpectrumToY_SpectrumToXYZ_spec_witness :
  let c1 := ConstantSpectrum_handle one in
  let c2 := ConstantSpectrum_handle (of_Z 2) in
  SpectrumToY example_CIE_Y_integral c1 472 c2
  = Ret (fdiv (Riemann_sum (spectrum_eval c1) (spectrum_eval c2)) example_CIE_Y_integral)
  /\ SpectrumToXYZ example_CIE_Y_integral c1 c1 c1 472 c2
     = Ret {| xyz_X := fdiv (Riemann_sum (spectrum_eval c1) (spectrum_eval c2))
                            example_CIE_Y_integral;
              xyz_Y := fdiv (Riemann_sum (spectrum_eval c1) (spectrum_eval c2))
                            example_CIE_Y_integral;
              xyz_Z := fdiv (Riemann_sum (spectrum_eval c1) (spectrum_eval c2))
                            example_CIE_Y_integral |}.
Proof.
  cbv zeta.
  apply (SpectrumToY_SpectrumToXYZ_spec example_CIE_Y_integral
           (ConstantSpectrum_handle one) (ConstantSpectrum_handle one)
           (ConstantSpectrum_handle one) 472 (ConstantSpectrum_handle (of_Z 2))).
  apply le_n.
Defined.

Lemma FindMatchingNamed_spec_witness :
  FindMatchingNamed example_namedSPDs (ConstantSpectrum_handle (of_Z 2)) = "two"%string
  /\ (FindMatchingNamed example_namedSPDs (ConstantSpectrum_handle (of_Z 2)) <> EmptyString ->
      exists h,
        GetNamed example_namedSPDs
          (FindMatchingNamed example_namedSPDs (ConstantSpectrum_handle (of_Z 2))) = Some h
        /\ agree_on_probes (ConstantSpectrum_handle (of_Z 2)) h).
Proof.
  assert (Hnd : NoDup (map fst example_namedSPDs)).
  { simpl. repeat constructor; simpl; intuition discriminate. }
  split; [reflexivity|].
  exact (proj1 (proj2 (FindMatchingNamed_spec example_namedSPDs
                         (ConstantSpectrum_handle (of_Z 2)) Hnd))).
Defined.

(** C6 as stated fails. For black the largest component is 0 and the scale
    is 0, so their product is 0, not 0.5. For (1.7f, 0, 0) the scale is
    the rounded quotient 0.5f / 1.7f and its product with 1.7f rounds to
    the Float just below 0.5. For a largest component +inf the scale is 0
    and the product NaN; for the smallest positive Float, 2^-149, the
    scale is +inf and so is the product. *)
Lemma RGBSpectrum_scale_counterexample :
  valid (rgb_r red_1_7) = true
  /\ rgbs_scale (RGBSpectrum_new example_colorspace black) = zero
  /\ feq (fmul (std_max3 (rgb_r black) (rgb_g black) (rgb_b black))
               (rgbs_scale (RGBSpectrum_new example_colorspace black))) half = false
  /\ fgt (std_max3 (rgb_r red_1_7) (rgb_g red_1_7) (rgb_b red_1_7)) zero = true
  /\ fmul (std_max3 (rgb_r red_1_7) (rgb_g red_1_7) (rgb_b red_1_7))
          (rgbs_scale (RGBSpectrum_new example_colorspace red_1_7))
     = below_half
  /\ feq below_half half = false
  /\ fgt (std_max3 (rgb_r white_inf) (rgb_g white_inf) (rgb_b white_inf)) zero = true
  /\ isnan (fmul (std_max3 (rgb_r white_inf) (rgb_g white_inf) (rgb_b white_inf))
                 (rgbs_scale (RGBSpectrum_new example_colorspace white_inf))) = true
  /\ valid (rgb_r red_tiny) = true
  /\ fgt (std_max3 (rgb_r red_tiny) (rgb_g red_tiny) (rgb_b red_tiny)) zero = true
  /\ fmul (std_max3 (rgb_r red_tiny) (rgb_g red_tiny) (rgb_b red_tiny))
          (rgbs_scale (RGBSpectrum_new example_colorspace red_tiny))
     = pinf.
Proof. repeat split; vm_compute; reflexivity. Qed.

(** C6 at (1.7f, 0, 0): 1.7f is normal, so the product is one of the two
    values. *)
Lemma RGBSpectrum_new_spec_witness :
  let m := std_max3 (rgb_r red_1_7) (rgb_g red_1_7) (rgb_b red_1_7) in
  let sp := RGBSpectrum_new example_colorspace red_1_7 in
  fgt m zero = true
  /\ (fmul m (rgbs_scale sp) = half \/ fmul m (rgbs_scale sp) = below_half).
Proof.
  cbv zeta.
  destruct (RGBSpectrum_new_spec _ example_colorspace red_1_7)
    as (_ & _ & _ & _ & _ & _ & _ & _ & H).
  apply H. reflexivity.
Defined.




(** C5 on the example, in a build that keeps the DCHECK. *)
Lemma PiecewiseLinearSpectrum_eval_spec_witness :
  PiecewiseLinearSpectrum_eval true example_pls (of_Z 300) = Ret (of_Z 1)
  /\ PiecewiseLinearSpectrum_eval true example_pls (of_Z 800) = Ret (of_Z 2)
  /\ PiecewiseLinearSpectrum_eval true example_pls (of_Z 450)
     = Ret (Lerp (fdiv (fsub (of_Z 450) (of_Z 400)) (fsub (of_Z 500) (of_Z 400)))
                 (of_Z 1) (of_Z 3)).
Proof.
  assert (Hne : example_lambda <> []) by discriminate.
  assert (Hnew : PiecewiseLinearSpectrum_new example_lambda example_values
                 = Ret example_pls) by reflexivity.
  assert (Hmax : size example_lambda <= INT_MAX) by (vm_compute; discriminate).
  destruct (PiecewiseLinearSpectrum_eval_spec true _ _ _ Hne Hnew) as (H1 & H2 & H3).
  split; [|split].
  - apply H1. reflexivity.
  - apply H2. reflexivity.
  - apply (H3 Hmax (of_Z 450) 0%nat); [simpl; lia | reflexivity | reflexivity].
Defined.

(** ** The remaining cases of the constructors and of [Read], at inputs *)

Definition file_of (vals : option (list Float)) : string -> option (list Float) :=
  fun _ => vals.

Lemma PiecewiseLinearSpectrum_new_ok_witness :
  PiecewiseLinearSpectrum_new example_lambda example_values = Ret example_pls.
Proof.
  apply PiecewiseLinearSpectrum_new_ok;
    [discriminate | vm_compute; discriminate | reflexivity | reflexivity].
Defined.

Lemma PiecewiseLinearSpectrum_new_size_mismatch_witness :
  PiecewiseLinearSpectrum_new example_lambda [of_Z 1] = CheckFailed.
Proof.
  apply PiecewiseLinearSpectrum_new_size_mismatch;
    [vm_compute; discriminate | vm_compute; discriminate | vm_compute; discriminate].
Defined.

Lemma PiecewiseLinearSpectrum_new_not_increasing_witness :
  PiecewiseLinearSpectrum_new [of_Z 500; of_Z 500] [of_Z 1; of_Z 2] = CheckFailed.
Proof.
  apply PiecewiseLinearSpectrum_new_not_increasing;
    [discriminate | vm_compute; discriminate | reflexivity | reflexivity].
Defined.

Lemma Read_unreadable_witness :
  PiecewiseLinearSpectrum_Read (file_of None) "spd"%string
  = ([UnableToRead "spd"%string], Ret None).
Proof. apply Read_unreadable. reflexivity. Defined.

Lemma Read_odd_witness :
  PiecewiseLinearSpectrum_Read (file_of (Some [of_Z 400; of_Z 1; of_Z 500])) "spd"%string
  = ([ExtraValue "spd"%string], Ret None).
Proof.
  apply (Read_odd _ _ [of_Z 400; of_Z 1; of_Z 500]); [reflexivity | vm_compute; discriminate].
Defined.

Lemma Read_not_increasing_witness :
  PiecewiseLinearSpectrum_Read
    (file_of (Some [of_Z 500; of_Z 1; of_Z 400; of_Z 2])) "spd"%string
  = ([NotIncreasing "spd"%string 1 (of_Z 500) (of_Z 400)], Ret None).
Proof.
  apply (Read_not_increasing _ _ [(of_Z 500, of_Z 1); (of_Z 400, of_Z 2)]);
    reflexivity.
Defined.

Lemma Read_well_formed_witness :
  PiecewiseLinearSpectrum_Read
    (file_of (Some [of_Z 400; of_Z 1; of_Z 500; of_Z 3])) "spd"%string
  = ([], Ret (Some {| pls_lambda := [of_Z 400; of_Z 500]; pls_v := [of_Z 1; of_Z 3] |})).
Proof.
  apply (Read_well_formed _ _ [(of_Z 400, of_Z 1); (of_Z 500, of_Z 3)]);
    [reflexivity | discriminate | vm_compute; discriminate | reflexivity].
Defined.

Lemma DenselySampledSpectrum_new_ok_witness :
  DenselySampledSpectrum_new (ConstantSpectrum_handle one) 360 362
  = Ret {| dss_lambdaMin := 360; dss_lambdaMax := 362; dss_v := [one; one; one] |}.
Proof.
  apply (DenselySampledSpectrum_new_ok (ConstantSpectrum_handle one) 360 362);
    vm_compute; congruence.
Defined.

Lemma DenselySampledSpectrum_new_CHECK_witness :
  DenselySampledSpectrum_new (ConstantSpectrum_handle one) 360 359 = CheckFailed.
Proof.
  apply (DenselySampledSpectrum_new_CHECK (ConstantSpectrum_handle one) 360).
  split; vm_compute; congruence.
Defined.

Lemma DenselySampledSpectrum_new_reversed_witness :
  DenselySampledSpectrum_new (ConstantSpectrum_handle one) 830 300 = AllocFailed.
Proof.
  apply DenselySampledSpectrum_new_reversed; vm_compute; congruence.
Defined.

(** ** [operator()], [MakeSpectrumFromInterleaved] and the other properties
    with a precondition, at inputs *)

Definition example_pairs : list (Float * Float) :=
  [(of_Z 400, of_Z 1); (of_Z 500, of_Z 3)].

Definition example_table : list (string * SpectrumHandle) :=
  [("a"%string, ConstantSpectrum_handle one);
   ("b"%string, ConstantSpectrum_handle (of_Z 2));
   ("c"%string, ConstantSpectrum_handle (of_Z 2))].

Definition example_wavelengths : SampledWavelengths :=
  {| swl_lambda := [of_Z 400; of_Z 500; of_Z 600; of_Z 700];
     swl_pdf := [one; zero; one; one] |}.

(** The example at 450 and at NaN, with the DCHECK kept and dropped. *)
Lemma PiecewiseLinearSpectrum_eval_returns_witness :
  (exists y, PiecewiseLinearSpectrum_eval true example_pls (of_Z 450) = Ret y)
  /\ PiecewiseLinearSpectrum_eval true example_pls nan = CheckFailed
  /\ PiecewiseLinearSpectrum_eval false example_pls nan = Ret nan.
Proof.
  assert (Hnew : PiecewiseLinearSpectrum_new example_lambda example_values
                 = Ret example_pls) by reflexivity.
  assert (Hlen : (2 <= List.length example_lambda)%nat) by (simpl; lia).
  assert (Hmax : size example_lambda <= INT_MAX) by (vm_compute; discriminate).
  split; [|split].
  - apply (proj1 (PiecewiseLinearSpectrum_eval_returns true example_lambda
                    example_values example_pls (of_Z 450) Hnew Hlen Hmax)).
    reflexivity.
  - apply (proj2 (PiecewiseLinearSpectrum_eval_returns true example_lambda
                    example_values example_pls nan Hnew Hlen Hmax)).
    reflexivity.
  - apply (proj2 (PiecewiseLinearSpectrum_eval_returns false example_lambda
                    example_values example_pls nan Hnew Hlen Hmax)).
    reflexivity.
Defined.

Lemma PiecewiseLinearSpectrum_eval_endpoints_witness :
  PiecewiseLinearSpectrum_eval true example_pls (of_Z 400) = Ret (of_Z 1)
  /\ PiecewiseLinearSpectrum_eval true example_pls (of_Z 700) = Ret (of_Z 2).
Proof.
  apply (PiecewiseLinearSpectrum_eval_endpoints true example_lambda example_values
           example_pls); [discriminate | reflexivity | reflexivity | reflexivity].
Defined.

Lemma MakeSpectrumFromInterleaved_odd_witness :
  MakeSpectrumFromInterleaved example_CIE_Y_integral (ConstantSpectrum_handle one) true
    472 [of_Z 400; of_Z 1; of_Z 500] true
  = CheckFailed.
Proof. apply MakeSpectrumFromInterleaved_odd. vm_compute. discriminate. Defined.

Lemma MakeSpectrumFromInterleaved_not_increasing_witness :
  MakeSpectrumFromInterleaved example_CIE_Y_integral (ConstantSpectrum_handle one) true
    472 (flatten_pairs [(of_Z 500, of_Z 1); (of_Z 400, of_Z 3)]) true
  = CheckFailed.
Proof.
  apply MakeSpectrumFromInterleaved_not_increasing;
    [vm_compute; congruence | reflexivity].
Defined.

Lemma MakeSpectrumFromInterleaved_well_formed_witness :
  MakeSpectrumFromInterleaved example_CIE_Y_integral (ConstantSpectrum_handle one) true
    0 (flatten_pairs example_pairs) false
  = Ret (Interleaved_plain {| pls_lambda := map fst example_pairs;
                              pls_v := map snd example_pairs |}).
Proof.
  apply MakeSpectrumFromInterleaved_well_formed;
    [discriminate | vm_compute; congruence | reflexivity].
Defined.

Lemma MakeSpectrumFromInterleaved_Read_witness :
  let p := {| pls_lambda := [of_Z 400; of_Z 500]; pls_v := [of_Z 1; of_Z 3] |} in
  snd (PiecewiseLinearSpectrum_Read (file_of (Some (flatten_pairs example_pairs)))
         "spd"%string) = Ret (Some p)
  <-> MakeSpectrumFromInterleaved example_CIE_Y_integral (ConstantSpectrum_handle one) true
        0 (flatten_pairs example_pairs) false
      = Ret (Interleaved_plain p).
Proof.
  cbv zeta. apply MakeSpectrumFromInterleaved_Read;
    [reflexivity | vm_compute; congruence].
Defined.

Lemma MakeSpectrumFromInterleaved_normalize_witness :
  let p := {| pls_lambda := map fst example_pairs; pls_v := map snd example_pairs |} in
  MakeSpectrumFromInterleaved example_CIE_Y_integral (ConstantSpectrum_handle one) true
    472 (flatten_pairs example_pairs) true
  = Ret (Interleaved_scaled
           (fdiv one (fdiv (Riemann_sum (spectrum_eval (ConstantSpectrum_handle one))
                                        (PiecewiseLinearSpectrum_value true p))
                           example_CIE_Y_integral))
           p).
Proof.
  apply MakeSpectrumFromInterleaved_normalize;
    [simpl; lia | vm_compute; congruence | reflexivity | lia].
Defined.

Lemma Read_without_nan_witness :
  (exists w,
     PiecewiseLinearSpectrum_Read (file_of (Some (flatten_pairs example_pairs)))
       "spd"%string = ([w], Ret None))
  \/ PiecewiseLinearSpectrum_Read (file_of (Some (flatten_pairs example_pairs)))
       "spd"%string
     = ([], Ret (Some {| pls_lambda := map fst example_pairs;
                         pls_v := map snd example_pairs |})).
Proof.
  apply Read_without_nan;
    [reflexivity | discriminate | vm_compute; congruence
    | repeat constructor].
Defined.

Lemma Read_nan_wavelength_witness :
  PiecewiseLinearSpectrum_Read
    (file_of (Some [of_Z 400; of_Z 1; nan; of_Z 2])) "spd"%string
  = ([], CheckFailed).
Proof.
  apply (Read_nan_wavelength _ _ [(of_Z 400, of_Z 1); (nan, of_Z 2)] nan);
    [reflexivity | simpl; lia | vm_compute; congruence
    | right; left; reflexivity | reflexivity | reflexivity].
Defined.

Lemma SampledSpectrum_y_ToXYZ_zero_pdf_witness :
  let c := ConstantSpectrum_handle one in
  let v := [of_Z 1; of_Z 2; of_Z 3; of_Z 4] in
  let v' := [of_Z 1; nan; of_Z 3; of_Z 4] in
  SampledSpectrum_y 4 example_CIE_Y_integral c v example_wavelengths
  = SampledSpectrum_y 4 example_CIE_Y_integral c v' example_wavelengths
  /\ SampledSpectrum_ToXYZ 4 example_CIE_Y_integral c c c v example_wavelengths
     = SampledSpectrum_ToXYZ 4 example_CIE_Y_integral c c c v' example_wavelengths.
Proof.
  cbv zeta. apply SampledSpectrum_y_ToXYZ_zero_pdf.
  intros i Hi Hnz.
  destruct i as [|[|[|[|i]]]]; [reflexivity | | reflexivity | reflexivity | lia].
  vm_compute in Hnz. discriminate.
Defined.

Lemma BlackbodySpectrum_Sample_cold_witness :
  BlackbodySpectrum_Sample exp_rn 4 (of_Z (-5)) (of_Z 2) example_wavelengths
  = Ret (ConstantSpectrum_Sample 4 (fmul (of_Z 2) zero) example_wavelengths).
Proof. apply BlackbodySpectrum_Sample_cold. reflexivity. Defined.

Lemma FindMatchingNamed_first_witness :
  FindMatchingNamed example_table (ConstantSpectrum_handle (of_Z 2)) = "b"%string.
Proof.
  apply (FindMatchingNamed_first example_table (ConstantSpectrum_handle (of_Z 2))
           "b"%string (ConstantSpectrum_handle (of_Z 2))
           [("a"%string, ConstantSpectrum_handle one)]
           [("c"%string, ConstantSpectrum_handle (of_Z 2))]);
    [reflexivity | repeat constructor | reflexivity].
Defined.

Lemma FindMatchingNamed_nan_witness :
  FindMatchingNamed [("n"%string, ConstantSpectrum_handle nan)]
    (ConstantSpectrum_handle nan)
  = EmptyString.
Proof.
  apply (FindMatchingNamed_nan _ _ (of_Z 380)); [left; reflexivity | reflexivity].
Defined.

Lemma DenselySampledSpectrum_new_overflow_witness :
  DenselySampledSpectrum_new (ConstantSpectrum_handle one) (INT_MAX - 1) INT_MAX
  = SignedOverflow.
Proof.
  apply DenselySampledSpectrum_new_overflow;
    [vm_compute; congruence | vm_compute; congruence | vm_compute; congruence
    | left; reflexivity].
Defined.
